(** * deepinv: priors and primal-dual iterators

    A shallow embedding of
      - [deepinv/optim/prior.py] (Prior, PnP, RED, Tikhonov, ScorePrior),
      - [deepinv/optim/optim_iterators/primal_dual_CP.py] (Chambolle-Pock),
      - [examples/plug-and-play/demo_PnP_custom_optim.py] (Condat-Vu),
    together with the properties stated about them.

    Conventions of the embedding.
      - Python floats are idealised as real numbers ([R]); rounding, [inf]
        and [nan] are not represented.
      - A Python call either returns a value or raises: [exc A].
      - Tensors are an abstract carrier [T] with the torch operators the
        sources use ([Tensor T]); two concrete carriers are given below. *)

From Stdlib Require Import Reals Lra ZArith.
From stdpp Require Import base option list gmap strings.

(** ** Python exceptions and the exception monad *)

Inductive exn : Type :=
| KeyError (key : string)
| TypeError
| ValueError
| AttributeError
| ZeroDivisionError.

Inductive exc (A : Type) : Type :=
| Ok (a : A)
| Raise (e : exn).
Arguments Ok {A} a.
Arguments Raise {A} e.

#[global] Instance exc_ret : MRet exc := fun _ a => Ok a.
#[global] Instance exc_bind : MBind exc := fun _ _ f m =>
  match m with
  | Ok a => f a
  | Raise e => Raise e
  end.
#[global] Instance exc_fmap : FMap exc := fun _ _ f m =>
  match m with
  | Ok a => Ok (f a)
  | Raise e => Raise e
  end.

Definition raises {A} (m : exc A) : Prop := exists e, m = Raise e.
Definition returns {A} (m : exc A) : Prop := exists a, m = Ok a.

(** ** Tensors

    The operators of [torch.Tensor] that the sources use.  Every carrier is a
    family of tensor shapes that is closed under broadcasting and has a
    leading batch dimension, so that no operator raises. *)

Class Tensor (T : Type) : Type := {
  tadd : T -> T -> T;          (* [a + b] *)
  tsub : T -> T -> T;          (* [a - b] *)
  smul : R -> T -> T;          (* [c * a], [c] a Python number *)
  tdiv : T -> R -> T;          (* [a / c], [c] a Python number *)
  norm_rows : T -> T;          (* [torch.norm(a.view(a.shape[0], -1), p=2, dim=-1)] *)
  tdist : T -> T -> R;         (* L2 distance of two tensors *)
}.

Declare Scope tensor_scope.
Delimit Scope tensor_scope with T.
Infix "[+]" := tadd (at level 50, left associativity) : tensor_scope.
Infix "[-]" := tsub (at level 50, left associativity) : tensor_scope.
Infix "[*]" := smul (at level 40, left associativity) : tensor_scope.
Infix "[/]" := tdiv (at level 40, left associativity) : tensor_scope.
Local Open Scope tensor_scope.

(** Tensors of one fixed shape form a real vector space. *)
Class TensorLaws (T : Type) `{Tensor T} : Prop := {
  tadd_comm : forall a b : T, a [+] b = b [+] a;
  tadd_assoc : forall a b c : T, a [+] (b [+] c) = (a [+] b) [+] c;
  tsub_def : forall a b : T, a [-] b = a [+] (-1)%R [*] b;
  tdiv_def : forall (a : T) (c : R), a [/] c = (/ c)%R [*] a;
  smul_tadd : forall (c : R) (a b : T), c [*] (a [+] b) = c [*] a [+] c [*] b;
  smul_plus : forall (c d : R) (a : T), (c + d)%R [*] a = c [*] a [+] d [*] a;
  smul_smul : forall (c d : R) (a : T), c [*] (d [*] a) = (c * d)%R [*] a;
  smul_1 : forall a : T, 1%R [*] a = a;
  tadd_0 : forall a b : T, a [+] 0%R [*] b = a;
}.

(** The shape of a tensor ([a.shape], a [torch.Size]). *)
Class Shaped (T : Type) : Type := shape : T -> list nat.

(** Elementwise operators keep the common shape of their operands. *)
Class ShapeLaws (T : Type) `{Tensor T} `{Shaped T} : Prop := {
  shape_tadd : forall a b : T, shape a = shape b -> shape (a [+] b) = shape a;
  shape_tsub : forall a b : T, shape a = shape b -> shape (a [-] b) = shape a;
  shape_smul : forall (c : R) (a : T), shape (c [*] a) = shape a;
  shape_tdiv : forall (a : T) (c : R), shape (a [/] c) = shape a;
}.

(** ** Python values held by parameter dictionaries

    [cur_params] maps parameter names to Python numbers (step sizes,
    weights, noise levels) or to callables (the operators ["K"] and
    ["K_adjoint"]). *)

Inductive pyval (T : Type) : Type :=
| PNum (r : R)
| PFun (f : T -> T).
Arguments PNum {T} r.
Arguments PFun {T} f.

Section python.
Context {T : Type} `{Tensor T}.

(** [d[key]] *)
Definition getitem (d : gmap string (pyval T)) (key : string) : exc (pyval T) :=
  match d !! key with
  | Some v => Ok v
  | None => Raise (KeyError key)
  end.

(** [f(x)] *)
Definition py_call (f : pyval T) (x : T) : exc T :=
  match f with
  | PFun f => Ok (f x)
  | PNum _ => Raise TypeError
  end.

(** [a + b] on Python values *)
Definition py_add (a b : pyval T) : exc (pyval T) :=
  match a, b with
  | PNum a, PNum b => Ok (PNum (a + b))
  | _, _ => Raise TypeError
  end.

(** [a * b] on Python values *)
Definition py_mul (a b : pyval T) : exc (pyval T) :=
  match a, b with
  | PNum a, PNum b => Ok (PNum (a * b))
  | _, _ => Raise TypeError
  end.

(** [a / b] on Python numbers *)
Definition py_truediv (a b : pyval T) : exc (pyval T) :=
  match a, b with
  | PNum a, PNum b =>
      if Req_dec_T b 0 then Raise ZeroDivisionError else Ok (PNum (a / b))
  | _, _ => Raise TypeError
  end.

(** [a ** 2] on Python values *)
Definition py_square (a : pyval T) : exc (pyval T) :=
  match a with
  | PNum a => Ok (PNum (a * a))
  | PFun _ => Raise TypeError
  end.

(** [c * a], [a] a tensor *)
Definition py_mul_tensor (c : pyval T) (a : T) : exc T :=
  match c with
  | PNum c => Ok (c [*] a)
  | PFun _ => Raise TypeError
  end.

(** [a / c], [a] a tensor; torch does not raise on a zero divisor *)
Definition py_div_tensor (a : T) (c : pyval T) : exc T :=
  match c with
  | PNum c => Ok (a [/] c)
  | PFun _ => Raise TypeError
  end.

End python.

(** ** [deepinv/optim/utils.py] *)

Module utils.
Section utils.
Context {T : Type} `{Tensor T}.

(** Modelled from the spec: [gradient_descent] of [deepinv/optim/utils.py],
    which is absent from the sources.  Section 4.2 of the specification:
    repeatedly apply [z <- z - step_size * grad_f(z)] until successive
    iterates differ by less than the tolerance or the iteration cap is
    reached.  [gradient_descent_run] also counts the iterations it performs. *)
Fixpoint gradient_descent_loop (grad_f : T -> exc T) (step_size tol : R)
    (fuel : nat) (z : T) : exc (T * nat) :=
  match fuel with
  | O => Ok (z, O)
  | S fuel' =>
      d ← grad_f z;
      let z' := z [-] step_size [*] d in
      if Rlt_dec (tdist z' z) tol then Ok (z', 1%nat)
      else
        r ← gradient_descent_loop grad_f step_size tol fuel' z';
        Ok (r.1, S r.2)
  end.

Definition gradient_descent_run (grad_f : T -> exc T) (x : T)
    (step_size : R) (max_iter : Z) (tol : R) : exc (T * nat) :=
  gradient_descent_loop grad_f step_size tol (Z.to_nat max_iter) x.

Definition gradient_descent (grad_f : T -> exc T) (x : T)
    (step_size : R) (max_iter : Z) (tol : R) : exc T :=
  fst <$> gradient_descent_run grad_f x step_size max_iter tol.

(** The [k]-th iterate of the update [z <- z - step_size * grad_f(z)]. *)
Fixpoint gradient_iterate (grad_f : T -> exc T) (step_size : R)
    (k : nat) (z : T) : exc T :=
  match k with
  | O => Ok z
  | S k' =>
      d ← grad_f z;
      gradient_iterate grad_f step_size k' (z [-] step_size [*] d)
  end.

End utils.
End utils.

(** ** [deepinv/optim/prior.py] *)

Module prior.

Inductive class : Type := Prior | PnP | RED | Tikhonov | ScorePrior.

Section prior.
Context {T : Type} `{Tensor T}.

(** [torch.autograd.grad(g(x), x)[0]]: the gradient at [x] of the potential
    [g], whatever automatic differentiation returns for it. *)
Variable autograd : (T -> exc T) -> T -> exc T.

(** A prior object: its class, whether [nn.Module.__init__] has run on it,
    and its instance attributes ([None] when the attribute was never set). *)
Record object : Type := {
  class_of : class;
  module_initialized : bool;
  _g : option (option (T -> list (pyval T) -> exc T));
  explicit_prior : option bool;
  denoiser : option (T -> pyval T -> T);
}.

(** [object.__new__(cls)] *)
Definition new (cls : class) : object :=
  {| class_of := cls; module_initialized := false; _g := None;
     explicit_prior := None; denoiser := None |}.

(** The keyword arguments the methods of this file name. *)
Record kwargs : Type := {
  stepsize_inter : option R;
  max_iter_inter : option Z;
  tol_inter : option R;
}.
Definition no_kwargs : kwargs :=
  {| stepsize_inter := None; max_iter_inter := None; tol_inter := None |}.
Definition has_kwargs (kw : kwargs) : bool :=
  bool_decide (is_Some (stepsize_inter kw))
  || bool_decide (is_Some (max_iter_inter kw))
  || bool_decide (is_Some (tol_inter kw)).

(** [self.denoiser = denoiser]: [nn.Module.__setattr__] refuses to register a
    sub-module before [nn.Module.__init__] has run. *)
Definition set_denoiser (self : object) (d : T -> pyval T -> T) : exc object :=
  if module_initialized self then
    Ok {| class_of := class_of self; module_initialized := true;
          _g := _g self; explicit_prior := explicit_prior self;
          denoiser := Some d |}
  else Raise AttributeError.

Definition set_explicit_prior (self : object) (b : bool) : object :=
  {| class_of := class_of self; module_initialized := module_initialized self;
     _g := _g self; explicit_prior := Some b; denoiser := denoiser self |}.

Definition get_denoiser (self : object) : exc (T -> pyval T -> T) :=
  match denoiser self with
  | Some d => Ok d
  | None => Raise AttributeError
  end.

(** *** class Prior *)

Definition Prior___init__ (self : object)
    (g : option (T -> list (pyval T) -> exc T)) : exc object :=
  (* super().__init__() *)
  let self := {| class_of := class_of self; module_initialized := true;
                 _g := _g self; explicit_prior := explicit_prior self;
                 denoiser := denoiser self |} in
  (* self._g = g *)
  let self := {| class_of := class_of self;
                 module_initialized := module_initialized self;
                 _g := Some g; explicit_prior := explicit_prior self;
                 denoiser := denoiser self |} in
  (* self.explicit_prior = False if self._g is None else True *)
  Ok (set_explicit_prior self (match g with None => false | Some _ => true end)).

Definition Prior_g (self : object) (x : T) (args : list (pyval T)) : exc T :=
  match _g self with
  | None => Raise AttributeError
  | Some None => Raise TypeError
  | Some (Some g) => g x args
  end.

(** *** class Tikhonov *)

Definition Tikhonov___init__ (self : object) : exc object :=
  Ok (set_explicit_prior self true).

Definition Tikhonov_g (self : object) (x : T) (args : list (pyval T)) : exc T :=
  match args with
  | [] => Ok (0.5%R [*] norm_rows x)
  | _ => Raise TypeError
  end.

Definition Tikhonov_grad (self : object) (x : T) (args : list (pyval T)) : exc T :=
  match args with
  | [] => Ok x
  | _ => Raise TypeError
  end.

Definition Tikhonov_prox (self : object) (x : T) (gamma : pyval T)
    (args : list (pyval T)) (kw : kwargs) : exc T :=
  match args with
  | [] =>
      if has_kwargs kw then Raise TypeError
      else
        s ← py_add gamma (PNum 1);
        c ← py_truediv (PNum 1) s;
        py_mul_tensor c x
  | _ => Raise TypeError
  end.

(** [self.g]: method resolution *)
Definition g (self : object) : T -> list (pyval T) -> exc T :=
  match class_of self with
  | Tikhonov => Tikhonov_g self
  | _ => Prior_g self
  end.

Definition Prior_forward (self : object) (x : T) (args : list (pyval T)) : exc T :=
  g self x args.

Definition Prior_grad (self : object) (x : T) (args : list (pyval T)) : exc T :=
  _ ← g self x args;
  autograd (fun x => g self x args) x.

(** *** class RED *)

Definition RED_grad (self : object) (x : T) (args : list (pyval T)) : exc T :=
  match args with
  | sigma_denoiser :: _ =>
      d ← get_denoiser self;
      Ok (x [-] d x sigma_denoiser)
  | [] => Raise TypeError
  end.

(** [self.grad]: method resolution *)
Definition grad (self : object) : T -> list (pyval T) -> exc T :=
  match class_of self with
  | Tikhonov => Tikhonov_grad self
  | RED => RED_grad self
  | _ => Prior_grad self
  end.

Definition Prior_prox (self : object) (x : T) (gamma : pyval T)
    (args : list (pyval T)) (kw : kwargs) : exc T :=
  let stepsize_inter := default 1%R (stepsize_inter kw) in
  let max_iter_inter := default 50%Z (max_iter_inter kw) in
  let tol_inter := default (1 / 1000)%R (tol_inter kw) in
  let grad := fun z =>
    d ← grad self z args;
    gd ← py_mul_tensor gamma d;
    Ok (gd [+] (z [-] x)) in
  utils.gradient_descent grad x stepsize_inter max_iter_inter tol_inter.

(** *** class PnP *)

Definition PnP_prox (self : object) (x : T) (gamma : pyval T)
    (args : list (pyval T)) (kw : kwargs) : exc T :=
  match args with
  | sigma_denoiser :: _ =>
      d ← get_denoiser self;
      Ok (d x sigma_denoiser)
  | [] => Raise TypeError
  end.

(** [self.prox]: method resolution *)
Definition prox (self : object) : T -> pyval T -> list (pyval T) -> kwargs -> exc T :=
  match class_of self with
  | Tikhonov => Tikhonov_prox self
  | PnP => PnP_prox self
  | _ => Prior_prox self
  end.

Definition Prior_prox_conjugate (self : object) (x : T) (gamma : pyval T)
    (args : list (pyval T)) (lamb : option (pyval T)) (kw : kwargs) : exc T :=
  let lamb := default (PNum 1) lamb in
  xg ← py_div_tensor x gamma;
  lg ← py_truediv lamb gamma;
  p ← prox self xg lg args kw;
  gp ← py_mul_tensor gamma p;
  Ok (x [-] gp).

(** [self.prox_conjugate]: no class of this file overrides it *)
Definition prox_conjugate (self : object) :
    T -> pyval T -> list (pyval T) -> option (pyval T) -> kwargs -> exc T :=
  Prior_prox_conjugate self.

(** [__init__] of the denoiser-backed classes PnP, RED and ScorePrior: all
    three have the same body. *)
Definition denoiser___init__ (self : object) (d : T -> pyval T -> T)
    (g : option (T -> list (pyval T) -> exc T)) : exc object :=
  self ← Prior___init__ self g;
  self ← set_denoiser self d;
  Ok (set_explicit_prior self false).

Definition PnP___init__ := denoiser___init__.
Definition RED___init__ := denoiser___init__.
Definition ScorePrior___init__ := denoiser___init__.

(** *** class ScorePrior *)

Definition ScorePrior_forward (self : object) (x : T) (args : list (pyval T)) : exc T :=
  match args with
  | [sigma] =>
      s2 ← py_square sigma;
      c ← py_truediv (PNum 1) s2;
      d ← get_denoiser self;
      py_mul_tensor c (x [-] d x sigma)
  | _ => Raise TypeError
  end.

(** [self.forward]: method resolution *)
Definition forward (self : object) : T -> list (pyval T) -> exc T :=
  match class_of self with
  | ScorePrior => ScorePrior_forward self
  | _ => Prior_forward self
  end.

(** [self(x, *args)]: [nn.Module.__call__] reads the hook tables that
    [nn.Module.__init__] creates before it dispatches to [forward]. *)
Definition __call__ (self : object) (x : T) (args : list (pyval T)) : exc T :=
  if module_initialized self then forward self x args
  else Raise AttributeError.

(** The constructor calls [Prior(g)], [PnP(denoiser)], [Tikhonov()]. *)
Definition make_Prior (g : option (T -> list (pyval T) -> exc T)) : exc object :=
  Prior___init__ (new Prior) g.
Definition make_PnP (d : T -> pyval T -> T)
    (g : option (T -> list (pyval T) -> exc T)) : exc object :=
  PnP___init__ (new PnP) d g.
Definition make_RED (d : T -> pyval T -> T)
    (g : option (T -> list (pyval T) -> exc T)) : exc object :=
  RED___init__ (new RED) d g.
Definition make_ScorePrior (d : T -> pyval T -> T)
    (g : option (T -> list (pyval T) -> exc T)) : exc object :=
  ScorePrior___init__ (new ScorePrior) d g.
Definition make_Tikhonov : exc object :=
  Tikhonov___init__ (new Tikhonov).

End prior.
End prior.

(** ** Collaborators of the iterators *)

(** The forward operator: [physics.A] and [physics.A_adjoint]. *)
Record physics (T : Type) : Type := {
  A : T -> T;
  A_adjoint : T -> T;
}.
Arguments A {T} _ _.
Arguments A_adjoint {T} _ _.

(** The data-fidelity term ([deepinv/optim/data_fidelity.py] is absent from
    the sources): the two methods the iterators call, taken as given.
    [prox(p, y, physics, gamma)] and [prox_d_conjugate(p, y, gamma, lamb=...)]. *)
Record data_fidelity (T : Type) : Type := {
  df_prox : T -> T -> physics T -> pyval T -> T;
  prox_d_conjugate : T -> T -> pyval T -> pyval T -> T;
}.
Arguments df_prox {T} _ _ _ _ _.
Arguments prox_d_conjugate {T} _ _ _ _ _.

(** The iterate dictionary [{"est": (...), "cost": F}]. *)
Record iterate (T : Type) : Type := {
  est : list T;
  cost : option R;
}.
Arguments est {T} _.
Arguments cost {T} _.

(** ** [deepinv/optim/optim_iterators/optim_iterator.py]

    The base classes [OptimIterator], [fStep] and [gStep] are absent from the
    sources; the attributes their subclasses read are taken as given. *)

Module optim_iterator.

Record fStep (T : Type) : Type := {
  f_data_fidelity : data_fidelity T;
  f_g_first : bool;
}.
Arguments f_data_fidelity {T} _.
Arguments f_g_first {T} _.

Record gStep : Type := {
  g_g_first : bool;
}.

Record OptimIterator (T F_type : Type) : Type := {
  g_first : bool;
  beta : R;
  F_fn : option F_type;
  has_cost : bool;
  f_step : fStep T;
  g_step : gStep;
}.
Arguments g_first {T F_type} _.
Arguments beta {T F_type} _.
Arguments F_fn {T F_type} _.
Arguments has_cost {T F_type} _.
Arguments f_step {T F_type} _.
Arguments g_step {T F_type} _.

(** The keyword arguments of the iterator constructors. *)
Record init_kwargs (T F_type : Type) : Type := {
  kw_data_fidelity : data_fidelity T;
  kw_g_first : bool;
  kw_beta : R;
  kw_F_fn : option F_type;
  kw_has_cost : bool;
}.
Arguments kw_data_fidelity {T F_type} _.
Arguments kw_g_first {T F_type} _.
Arguments kw_beta {T F_type} _.
Arguments kw_F_fn {T F_type} _.
Arguments kw_has_cost {T F_type} _.

Definition fStep___init__ {T F_type} (kw : init_kwargs T F_type) : fStep T :=
  {| f_data_fidelity := kw_data_fidelity kw; f_g_first := kw_g_first kw |}.

Definition gStep___init__ {T F_type} (kw : init_kwargs T F_type) : gStep :=
  {| g_g_first := kw_g_first kw |}.

(** Modelled from the spec: the base initialisers are absent from the
    sources.  [g_first] is fixed per instance, the cost function comes with
    its flag [has_cost], and [__init__] of [CPIteration] and of
    [CVIteration] builds [self.g_step] and [self.f_step] from the same
    keyword arguments. *)
Definition OptimIterator___init__ {T F_type} (kw : init_kwargs T F_type) :
    OptimIterator T F_type :=
  {| g_first := kw_g_first kw; beta := kw_beta kw; F_fn := kw_F_fn kw;
     has_cost := kw_has_cost kw;
     f_step := fStep___init__ kw; g_step := gStep___init__ kw |}.

End optim_iterator.

(** ** [deepinv/optim/optim_iterators/primal_dual_CP.py] *)

Module primal_dual_CP.
Import optim_iterator.
Section primal_dual_CP.
Context {T : Type} `{Tensor T}.
Variable autograd : (T -> exc T) -> T -> exc T.

(** [F_fn(x, cur_prior, cur_params, y, physics)] *)
Definition F_type : Type :=
  T -> prior.object (T:=T) -> gmap string (pyval T) -> T -> physics T -> R.

Definition CPIteration___init__ (kw : init_kwargs T F_type) :
    OptimIterator T F_type :=
  OptimIterator___init__ kw.

Definition fStepCP_forward (self : fStep T) (x w y : T) (physics : physics T)
    (cur_params : gmap string (pyval T)) : exc T :=
  if f_g_first self then
    stepsize ← getitem cur_params "stepsize";
    sw ← py_mul_tensor stepsize w;
    let p := x [-] sw in
    stepsize ← getitem cur_params "stepsize";
    lambda ← getitem cur_params "lambda";
    sl ← py_mul stepsize lambda;
    Ok (df_prox (f_data_fidelity self) p y physics sl)
  else
    sigma ← getitem cur_params "sigma";
    sw ← py_mul_tensor sigma w;
    let p := x [+] sw in
    sigma ← getitem cur_params "sigma";
    lambda ← getitem cur_params "lambda";
    Ok (prox_d_conjugate (f_data_fidelity self) p y sigma lambda).

Definition gStepCP_forward (self : gStep) (x w : T)
    (cur_prior : prior.object (T:=T))
    (cur_params : gmap string (pyval T)) : exc T :=
  if g_g_first self then
    sigma ← getitem cur_params "sigma";
    sw ← py_mul_tensor sigma w;
    let p := x [+] sw in
    sigma ← getitem cur_params "sigma";
    g_param ← getitem cur_params "g_param";
    prior.prox_conjugate autograd cur_prior p sigma [g_param] None prior.no_kwargs
  else
    stepsize ← getitem cur_params "stepsize";
    sw ← py_mul_tensor stepsize w;
    let p := x [-] sw in
    stepsize ← getitem cur_params "stepsize";
    g_param ← getitem cur_params "g_param";
    prior.prox autograd cur_prior p stepsize [g_param] prior.no_kwargs.

(** [cur_params[name](x) if name in cur_params.keys() else x] *)
Definition operator_or_identity (cur_params : gmap string (pyval T))
    (name : string) (x : T) : exc T :=
  if bool_decide (name ∈ dom cur_params) then
    f ← getitem cur_params name;
    py_call f x
  else Ok x.

(** [self.F_fn(...) if self.has_cost else None] *)
Definition cost_of {F} (self : OptimIterator T F) (apply : F -> R) : exc (option R) :=
  if has_cost self then
    match F_fn self with
    | Some f => Ok (Some (apply f))
    | None => Raise TypeError
    end
  else Ok None.

Definition CPIteration_forward (self : OptimIterator T F_type) (X : iterate T)
    (cur_prior : prior.object (T:=T)) (cur_params : gmap string (pyval T))
    (y : T) (physics : physics T) : exc (iterate T) :=
  match est X with
  | [x_prev; z_prev; u_prev] =>
      let K := operator_or_identity cur_params "K" in
      let K_adjoint := operator_or_identity cur_params "K_adjoint" in
      xu ← (if g_first self then
              Kz ← K z_prev;
              u ← gStepCP_forward (g_step self) u_prev Kz cur_prior cur_params;
              Ku ← K_adjoint u;
              x ← fStepCP_forward (f_step self) x_prev Ku y physics cur_params;
              Ok (x, u)
            else
              Kz ← K z_prev;
              u ← fStepCP_forward (f_step self) u_prev Kz y physics cur_params;
              Ku ← K_adjoint u;
              x ← gStepCP_forward (g_step self) x_prev Ku cur_prior cur_params;
              Ok (x, u));
      let x := xu.1 in
      let u := xu.2 in
      let z := x [+] beta self [*] (x [-] x_prev) in
      F ← cost_of self (fun F_fn => F_fn x cur_prior cur_params y physics);
      Ok {| est := [x; z; u]; cost := F |}
  | _ => Raise ValueError
  end.

End primal_dual_CP.
End primal_dual_CP.

(** ** [examples/plug-and-play/demo_PnP_custom_optim.py] *)

Module demo_PnP_custom_optim.
Import optim_iterator.
Section demo_PnP_custom_optim.
Context {T : Type} `{Tensor T}.
Variable autograd : (T -> exc T) -> T -> exc T.

(** [F_fn(x, cur_params, y, physics)] *)
Definition F_type : Type :=
  T -> gmap string (pyval T) -> T -> physics T -> R.

Definition CVIteration___init__ (kw : init_kwargs T F_type) :
    OptimIterator T F_type :=
  OptimIterator___init__ kw.

Definition fStepCV_forward (self : fStep T) (z y : T)
    (cur_params : gmap string (pyval T)) : exc T :=
  sigma ← getitem cur_params "sigma";
  lambda ← getitem cur_params "lambda";
  Ok (prox_d_conjugate (f_data_fidelity self) z y sigma lambda).

Definition gStepCV_forward (self : gStep) (x Atu : T)
    (cur_prior : prior.object (T:=T))
    (cur_params : gmap string (pyval T)) : exc T :=
  stepsize ← getitem cur_params "stepsize";
  sa ← py_mul_tensor stepsize Atu;
  stepsize ← getitem cur_params "stepsize";
  g_param ← getitem cur_params "g_param";
  prior.prox autograd cur_prior (x [-] sa) stepsize [g_param] prior.no_kwargs.

Definition CVIteration_forward (self : OptimIterator T F_type) (X : iterate T)
    (cur_prior : prior.object (T:=T)) (cur_params : gmap string (pyval T))
    (y : T) (physics : physics T) : exc (iterate T) :=
  match est X with
  | [x_prev; u_prev] =>
      x ← gStepCV_forward (g_step self) x_prev
            (A_adjoint physics u_prev) cur_prior cur_params;
      u ← fStepCV_forward (f_step self)
            (A physics (2%R [*] x [-] x_prev)) y cur_params;
      F ← primal_dual_CP.cost_of self (fun F_fn => F_fn x cur_params y physics);
      Ok {| est := [x; u]; cost := F |}
  | _ => Raise ValueError
  end.

End demo_PnP_custom_optim.
End demo_PnP_custom_optim.

(** ** [deepinv/unfolded] *)

Module unfolded.

(** An entry of the parameter schedule [params_algo]: one value shared by
    all iterations, or one value per iteration. *)
Inductive entry : Type :=
| Single (v : R)
| PerIteration (vs : list R).

Definition well_formed (max_iter : nat) (e : entry) : Prop :=
  match e with
  | Single _ => True
  | PerIteration vs => length vs = max_iter
  end.

#[global] Instance well_formed_dec max_iter e : Decision (well_formed max_iter e).
Proof. destruct e; simpl; apply _. Defined.







End unfolded.

(** ** Two concrete tensor carriers *)

(** Tensors of shape [(1,)]: a batch of one number. *)
#[global] Instance scalar_tensor : Tensor R := {|
  tadd := Rplus;
  tsub := Rminus;
  smul := Rmult;
  tdiv := Rdiv;
  norm_rows := Rabs;
  tdist := fun a b => Rabs (a - b);
|}.

#[global] Instance scalar_shaped : Shaped R := fun _ => [1%nat].

(** Tensors of shape [(1,)] and [(1, 2)]: a batch of one sample with one
    feature or two.  The two shapes broadcast against each other. *)
Inductive batch1 : Type :=
| B1 (a : R)
| B12 (a b : R).

Definition broadcast (f : R -> R -> R) (s t : batch1) : batch1 :=
  match s, t with
  | B1 a, B1 c => B1 (f a c)
  | B1 a, B12 c d => B12 (f a c) (f a d)
  | B12 a b, B1 c => B12 (f a c) (f b c)
  | B12 a b, B12 c d => B12 (f a c) (f b d)
  end.

Definition batch1_map (f : R -> R) (s : batch1) : batch1 :=
  match s with
  | B1 a => B1 (f a)
  | B12 a b => B12 (f a) (f b)
  end.

Definition batch1_norm (s : batch1) : R :=
  match s with
  | B1 a => Rabs a
  | B12 a b => sqrt (a * a + b * b)
  end.

#[global] Instance batch1_tensor : Tensor batch1 := {|
  tadd := broadcast Rplus;
  tsub := broadcast Rminus;
  smul := fun c => batch1_map (Rmult c);
  tdiv := fun s c => batch1_map (fun a => a / c)%R s;
  norm_rows := fun s => B1 (batch1_norm s);
  tdist := fun s t => batch1_norm (broadcast Rminus s t);
|}.

#[global] Instance batch1_shaped : Shaped batch1 := fun s =>
  match s with
  | B1 _ => [1%nat]
  | B12 _ _ => [1%nat; 2%nat]
  end.

(** ** Vocabulary of the statements *)

Section vocabulary.
Context {T : Type} `{Tensor T}.

(** The operator a parameter dictionary supplies under [name]; the identity
    when it supplies none. *)
Definition supplied_operator (cur_params : gmap string (pyval T))
    (name : string) : T -> T :=
  match cur_params !! name with
  | Some (PFun f) => f
  | _ => fun x => x
  end.

(** The entry under [name], if any, is a callable. *)
Definition callable_if_present (cur_params : gmap string (pyval T))
    (name : string) : Prop :=
  forall r, cur_params !! name <> Some (PNum r).

(** A linear operator on tensors. *)
Definition linear (f : T -> T) : Prop :=
  (forall a b, f (tsub a b) = tsub (f a) (f b))
  /\ (forall c a, f (smul c a) = smul c (f a)).

(** Slot by slot, the tensors of [new] have the shapes of those of [old]. *)
Definition same_shapes `{Shaped T} (new old : list T) : Prop :=
  Forall2 (fun a b => shape a = shape b) new old.

(** [f] maps tensors of shape [s] to tensors of shape [s']. *)
Definition maps_shape `{Shaped T} (f : T -> T) (s s' : list nat) : Prop :=
  forall a, shape a = s -> shape (f a) = s'.

(** The prox of [cur_prior] returns tensors of the shape of its argument. *)
Definition prox_keeps_shape `{Shaped T} (autograd : (T -> exc T) -> T -> exc T)
    (cur_prior : prior.object (T:=T)) : Prop :=
  forall p gamma args kw q,
    prior.prox autograd cur_prior p gamma args kw = Ok q -> shape q = shape p.

(** For the observation [y], the two proximity operators of the
    data-fidelity term return tensors of the shape of their argument. *)
Definition fidelity_keeps_shape `{Shaped T} (df : data_fidelity T) (y : T) : Prop :=
  (forall p physics gamma, shape (df_prox df p y physics gamma) = shape p)
  /\ (forall p sigma lamb, shape (prox_d_conjugate df p y sigma lamb) = shape p).

(** The shapes a Chambolle-Pock state [(x, z, u)] needs: [z] has the shape of
    [x], [K] maps that shape to the shape of [u], and [K_adjoint] back. *)
Definition CP_well_shaped `{Shaped T} (cur_params : gmap string (pyval T))
    (state : list T) : Prop :=
  exists x z u,
    state = [x; z; u]
    /\ shape z = shape x
    /\ maps_shape (supplied_operator cur_params "K") (shape x) (shape u)
    /\ maps_shape (supplied_operator cur_params "K_adjoint") (shape u) (shape x).

(** The shapes a Condat-Vu state [(x, u)] needs: [A] maps the shape of [x] to
    the shape of [u], and [A_adjoint] back. *)
Definition CV_well_shaped `{Shaped T} (physics : physics T)
    (state : list T) : Prop :=
  exists x u,
    state = [x; u]
    /\ maps_shape (A physics) (shape x) (shape u)
    /\ maps_shape (A_adjoint physics) (shape u) (shape x).

End vocabulary.

(** ** Sample collaborators

    Concrete denoisers, data-fidelity terms, operators and dictionaries on
    which the statements below are exercised. *)

Module sample.

(** Automatic differentiation of the potential [||x||^2 / 2], whose gradient
    at [x] is [x]. *)
Definition autograd_half_square {T : Type} : (T -> exc T) -> T -> exc T :=
  fun _ x => Ok x.

(** The potential [x^2 / 2] on numbers. *)
Definition half_square (x : R) (args : list (pyval R)) : exc R :=
  Ok (x * x / 2)%R.

(** A denoiser that halves its input, and one that returns it unchanged. *)
Definition halve (x : R) (sigma : pyval R) : R := (x / 2)%R.
Definition keep {T : Type} (x : T) (sigma : pyval T) : T := x.

(** The L2 data-fidelity term in the measurement domain: the closed forms
    [(p + gamma * y) / (1 + gamma)] of its prox and
    [(p - sigma * y) / (1 + sigma / lamb)] of its conjugate prox. *)
Definition L2 {T : Type} `{Tensor T} : data_fidelity T :=
  {| df_prox := fun p y _ gamma =>
       match gamma with
       | PNum c => tdiv (tadd p (smul c y)) (1 + c)
       | PFun _ => p
       end;
     prox_d_conjugate := fun p y sigma lamb =>
       match sigma, lamb with
       | PNum s, PNum l => tdiv (tsub p (smul s y)) (1 + s / l)
       | _, _ => p
       end |}.

(** The parameters of the demo: [{"stepsize": 1.0, "g_param": 0.01,
    "lambda": 1.0, "sigma": 1.0}]. *)
Definition params_algo {T : Type} : gmap string (pyval T) :=
  <["stepsize" := PNum 1%R]> (<["g_param" := PNum (1 / 100)%R]>
    (<["lambda" := PNum 1%R]> (<["sigma" := PNum 1%R]> ∅))).

(** The object that [PnP(denoiser=D)] returns. *)
Definition PnP_of {T : Type} (D : T -> pyval T -> T) : prior.object (T:=T) :=
  {| prior.class_of := prior.PnP; prior.module_initialized := true;
     prior._g := Some None; prior.explicit_prior := Some false;
     prior.denoiser := Some D |}.


(** A denoising problem: the forward operator is the identity. *)
Definition denoising {T : Type} : physics T :=
  {| A := fun x => x; A_adjoint := fun x => x |}.

(** A quadratic, non-linear forward operator on numbers. *)
Definition quadratic : physics R :=
  {| A := fun x => (x * x)%R; A_adjoint := fun x => x |}.

(** [CPIteration(data_fidelity=L2(), g_first=False, F_fn=None, has_cost=False)]
    with the relaxation [beta = 1], and the like for [CVIteration]. *)
Definition kwargs {T : Type} `{Tensor T} (F : Type) : optim_iterator.init_kwargs T F :=
  {| optim_iterator.kw_data_fidelity := L2;
     optim_iterator.kw_g_first := false;
     optim_iterator.kw_beta := 1%R;
     optim_iterator.kw_F_fn := None;
     optim_iterator.kw_has_cost := false |}.

End sample.

(** ** [deepinv/models/utils.py] *)

Module models_utils.

(** An array as numpy and torch hold it: its shape and its entries in
    row-major order.  [.cpu()], [.detach()], [.numpy()] and
    [torch.from_numpy] keep both. *)
Record ndarray (V : Type) : Type := {
  shape : list nat;
  data : list V;
}.
Arguments shape {V} _.
Arguments data {V} _.

(** The entries fill the shape. *)
Definition well_formed {V} (a : ndarray V) : Prop :=
  length (data a) = foldr Nat.mul 1%nat (shape a).

Inductive exn : Type := ValueError | RuntimeError.

(** The entries [f i j k] for [i < d0], [j < d1], [k < d2], in row-major
    order. *)
Definition table3 {V} (d0 d1 d2 : nat) (f : nat -> nat -> nat -> option V) :
    list V :=
  i ← seq 0 d0; j ← seq 0 d1; k ← seq 0 d2; option_list (f i j k).

(** The entry [a[i][j][k]] of a three-dimensional array of shape
    [(_, d1, d2)]. *)
Definition entry3 {V} (a : list V) (d1 d2 : nat) (i j k : nat) : option V :=
  a !! (i * (d1 * d2) + j * d2 + k)%nat.

(** [np.transpose(a, (1, 2, 0))]: [out[i][j][k] = a[k][i][j]]; numpy raises
    [ValueError] unless [a] has three axes. *)
Definition np_transpose_120 {V} (a : ndarray V) : exn + ndarray V :=
  match shape a with
  | [d0; d1; d2] =>
      inr {| shape := [d1; d2; d0];
             data := table3 d1 d2 d0 (fun i j k => entry3 (data a) d1 d2 k i j) |}
  | _ => inl ValueError
  end.

(** [t.permute(2, 0, 1)]: [out[k][i][j] = t[i][j][k]]; torch raises
    [RuntimeError] unless [t] has three dimensions. *)
Definition permute_201 {V} (t : ndarray V) : exn + ndarray V :=
  match shape t with
  | [d0; d1; d2] =>
      inr {| shape := [d2; d0; d1];
             data := table3 d2 d0 d1 (fun k i j => entry3 (data t) d1 d2 i j k) |}
  | _ => inl RuntimeError
  end.

Definition tensor2array {V} (img : ndarray V) : exn + ndarray V :=
  (* img = img.cpu().detach().numpy() *)
  np_transpose_120 img.

Definition array2tensor {V} (img : ndarray V) : exn + ndarray V :=
  permute_201 img (* torch.from_numpy(img) *).

End models_utils.

(** ** [examples/unfolded/demo_custom_prior_unfolded.py] *)

Module demo_custom_prior_unfolded.

(** A tensor of shape [(b, c, h, w)] as nested lists: batch, channels, rows,
    columns. *)
Abbreviation tensor4 := (list (list (list (list R)))).

(** [l[:-1]], [l[1:]] and the slice assignment [l[:-1] = v]. *)
Definition upto_last {A} (l : list A) : list A := take (length l - 1) l.
Definition from_second {A} (l : list A) : list A := drop 1 l.
Definition assign_upto_last {A} (l v : list A) : list A :=
  v ++ drop (length l - 1) l.

(** [g[:-1] = g[:-1] op s] along one axis. *)
Definition update_upto_last {A B} (op : A -> B -> A) (g : list A) (s : list B) :
    list A :=
  assign_upto_last g (zip_with op (upto_last g) s).

Definition zeros_like (I : tensor4) : tensor4 :=
  (fun p : list (list (list R)) =>
     (fun q : list (list R) =>
        (fun r : list R => (fun _ => 0%R) <$> r) <$> q) <$> p) <$> I.

(** The image gradient operator.  The result, of shape [(b, c, h, w, 2)], is
    given by its two components [G[..., 0]] and [G[..., 1]]. *)
Definition nabla (I : tensor4) : tensor4 * tensor4 :=
  (* G = torch.zeros((b, c, h, w, 2)) *)
  let G0 := zeros_like I in
  let G1 := zeros_like I in
  (* G[:, :, :-1, :, 0] = G[:, :, :-1, :, 0] - I[:, :, :-1] *)
  let G0 := zip_with (zip_with (fun g i =>
              update_upto_last (zip_with Rminus) g (upto_last i))) G0 I in
  (* G[:, :, :-1, :, 0] = G[:, :, :-1, :, 0] + I[:, :, 1:] *)
  let G0 := zip_with (zip_with (fun g i =>
              update_upto_last (zip_with Rplus) g (from_second i))) G0 I in
  (* G[:, :, :, :-1, 1] = G[:, :, :, :-1, 1] - I[..., :-1] *)
  let G1 := zip_with (zip_with (zip_with (fun g i =>
              update_upto_last Rminus g (upto_last i)))) G1 I in
  (* G[:, :, :, :-1, 1] = G[:, :, :, :-1, 1] + I[..., 1:] *)
  let G1 := zip_with (zip_with (zip_with (fun g i =>
              update_upto_last Rplus g (from_second i)))) G1 I in
  (G0, G1).

Definition sum_list (l : list R) : R := foldr Rplus 0%R l.

(** The sum of [f] over all entries. *)
Definition total (f : R -> R) (t : tensor4) : R :=
  sum_list ((fun p : list (list (list R)) =>
    sum_list ((fun q : list (list R) =>
      sum_list ((fun r : list R => sum_list (f <$> r)) <$> q)) <$> p)) <$> t).

(** The smooth TV prior: the square root of
    [mse_loss(dx, zeros_like(dx), reduction="sum")]. *)
Definition g {A} (x : tensor4) (args : list A) : R :=
  let dx := nabla x in
  let squared_error := fun d => ((d - 0) * (d - 0))%R in
  sqrt (total squared_error dx.1 + total squared_error dx.2).

(** Forward differences along a list, with a zero in the last place:
    [diff l[k] l[k+1]] for [k < len(l) - 1], then [zero l[-1]]. *)
Definition forward_difference {A} (zero : A -> A) (diff : A -> A -> A)
    (l : list A) : list A :=
  zip_with diff (upto_last l) (from_second l)
  ++ drop (length l - 1) (zero <$> l).

(** The entry [t[n][c][i][j]]. *)
Definition entry (t : tensor4) (n c i j : nat) : option R :=
  p ← t !! n; q ← p !! c; r ← q !! i; r !! j.

(** Every plane has [h] rows of [w] columns. *)
Definition rectangular (h w : nat) (t : tensor4) : Prop :=
  Forall (Forall (fun q => length q = h /\ Forall (fun r => length r = w) q)) t.

(** The image with [v] added to every pixel, and the constant image. *)
Definition shift (v : R) (t : tensor4) : tensor4 :=
  (fun p : list (list (list R)) =>
     (fun q : list (list R) =>
        (fun r : list R => (fun a => (a + v)%R) <$> r) <$> q) <$> p) <$> t.
Definition constant (b c h w : nat) (v : R) : tensor4 :=
  replicate b (replicate c (replicate h (replicate w v))).

(** The image with every pixel multiplied by [k]. *)
Definition scale (k : R) (t : tensor4) : tensor4 :=
  (fun p : list (list (list R)) =>
     (fun q : list (list R) =>
        (fun r : list R => (fun a => (k * a)%R) <$> r) <$> q) <$> p) <$> t.

End demo_custom_prior_unfolded.

(** Further sample collaborators. *)

Module sample_more.

(** [CPIteration(data_fidelity=L2(), g_first=True, F_fn=None, has_cost=False)]
    with the relaxation [beta = 1]. *)
Definition kwargs_g_first {T : Type} `{Tensor T} (F : Type) :
    optim_iterator.init_kwargs T F :=
  {| optim_iterator.kw_data_fidelity := sample.L2;
     optim_iterator.kw_g_first := true;
     optim_iterator.kw_beta := 1%R;
     optim_iterator.kw_F_fn := None;
     optim_iterator.kw_has_cost := false |}.

(** The dictionary [{"K": 2.0}], whose operator entry is not a callable. *)
Definition params_K_number {T : Type} : gmap string (pyval T) :=
  <["K" := PNum 2%R]> ∅.

End sample_more.

(** * Properties *)

Local Open Scope R_scope.

(** ** The two carriers *)

#[global] Instance scalar_tensor_laws : TensorLaws R.
Proof.
  split; intros; cbn; lra.
Qed.

(** ** Priors *)

Section prior_facts.
Context {T : Type} `{Tensor T}.
Variable autograd : (T -> exc T) -> T -> exc T.

Lemma make_Prior_eq (g : option (T -> list (pyval T) -> exc T)) :
  prior.make_Prior g =
  Ok {| prior.class_of := prior.Prior; prior.module_initialized := true;
        prior._g := Some g;
        prior.explicit_prior := Some (match g with None => false | Some _ => true end);
        prior.denoiser := None |}.
Proof. reflexivity. Qed.

Lemma make_PnP_eq (D : T -> pyval T -> T) g :
  prior.make_PnP D g =
  Ok {| prior.class_of := prior.PnP; prior.module_initialized := true;
        prior._g := Some g; prior.explicit_prior := Some false;
        prior.denoiser := Some D |}.
Proof. reflexivity. Qed.

Lemma make_PnP_sample (D : T -> pyval T -> T) :
  prior.make_PnP D None = Ok (sample.PnP_of D).
Proof. reflexivity. Qed.

Lemma make_Tikhonov_eq :
  prior.make_Tikhonov (T:=T) =
  Ok {| prior.class_of := prior.Tikhonov; prior.module_initialized := false;
        prior._g := None; prior.explicit_prior := Some true;
        prior.denoiser := None |}.
Proof. reflexivity. Qed.

(** C5.  The proximity operator of a plug-and-play prior built from a
    denoiser [D] is [D(x, sigma_denoiser)]: the step size [gamma] (and any
    further argument) does not enter the result, so two calls that differ
    only in [gamma] return the same tensor. *)
Theorem PnP_prox_is_denoiser (D : T -> pyval T -> T) g
    (x : T) (gamma gamma' sigma : pyval T) (args : list (pyval T))
    (kw : prior.kwargs) :
  exists self,
    prior.make_PnP D g = Ok self
    /\ prior.prox autograd self x gamma (sigma :: args) kw = Ok (D x sigma)
    /\ prior.prox autograd self x gamma' (sigma :: args) kw
       = prior.prox autograd self x gamma (sigma :: args) kw.
Proof.
  eexists. split; [apply make_PnP_eq|]. split; reflexivity.
Qed.

(** A prior built without a potential fails at its first use. *)
Lemma gradient_descent_first_raise (grad_f : T -> exc T) x step n tol e :
  (0 < n)%Z -> grad_f x = Raise e ->
  utils.gradient_descent grad_f x step n tol = Raise e.
Proof.
  intros Hn Hg. unfold utils.gradient_descent, utils.gradient_descent_run.
  destruct (Z.to_nat n) as [|k] eqn:Hk; [lia|].
  simpl. rewrite Hg. reflexivity.
Qed.

(** C7 (as amended).  [Prior(g=None)] is constructed without any error: the
    object is returned with [explicit_prior = False].  The missing potential
    is only detected when it is first used: [g] and [grad] raise
    [TypeError], the null potential not being callable, and so does [prox]
    with the default inner options, and with any inner options whose
    iteration cap [max_iter_inter] is positive. *)
Theorem Prior_without_potential_deferred (x : T) (gamma : pyval T)
    (args : list (pyval T)) :
  exists self,
    prior.make_Prior None = Ok self
    /\ prior.explicit_prior self = Some false
    /\ prior.g self x args = Raise TypeError
    /\ prior.grad autograd self x args = Raise TypeError
    /\ prior.prox autograd self x gamma args prior.no_kwargs = Raise TypeError
    /\ forall kw : prior.kwargs,
         (0 < default 50 (prior.max_iter_inter kw))%Z ->
         prior.prox autograd self x gamma args kw = Raise TypeError.
Proof.
  eexists. split; [apply make_Prior_eq|].
  split; [reflexivity|]. split; [reflexivity|]. split; [reflexivity|].
  split.
  - unfold prior.prox, prior.Prior_prox. simpl.
    apply gradient_descent_first_raise; [lia|]. reflexivity.
  - intros kw Hcap. unfold prior.prox, prior.Prior_prox.
    cbn [prior.class_of]. cbn zeta.
    apply gradient_descent_first_raise; [exact Hcap|]. reflexivity.
Qed.

(** C10.  [Tikhonov()] is constructed without the [nn.Module] initialiser
    having run.  Its methods [g], [grad] and [prox] still answer when called
    directly, but calling the object itself raises [AttributeError]; objects
    of the classes whose initialiser reaches [Prior.__init__] dispatch the
    call to [forward]. *)
Theorem Tikhonov_module_uninitialized (x : T) (gamma : R)
    (args : list (pyval T)) (D : T -> pyval T -> T) g :
  exists self,
    prior.make_Tikhonov = Ok self
    /\ prior.module_initialized self = false
    /\ prior.g self x [] = Ok (0.5 [*] norm_rows x)%T
    /\ prior.grad autograd self x [] = Ok x
    /\ prior.prox autograd self x (PNum gamma) [] prior.no_kwargs
       = (if Req_dec_T (gamma + 1) 0 then Raise ZeroDivisionError
          else Ok ((1 / (gamma + 1)) [*] x)%T)
    /\ prior.__call__ self x args = Raise AttributeError
    /\ (exists p, prior.make_Prior g = Ok p
          /\ prior.__call__ p x args = prior.forward p x args)
    /\ (exists p, prior.make_PnP D g = Ok p
          /\ prior.__call__ p x args = prior.forward p x args)
    /\ (exists p, prior.make_RED D g = Ok p
          /\ prior.__call__ p x args = prior.forward p x args)
    /\ (exists p, prior.make_ScorePrior D g = Ok p
          /\ prior.__call__ p x args = prior.forward p x args).
Proof.
  eexists. split; [apply make_Tikhonov_eq|].
  do 3 (split; [reflexivity|]). split; [|split; [reflexivity|]].
  - unfold prior.prox, prior.Tikhonov_prox. simpl.
    destruct (Req_dec_T (gamma + 1) 0); reflexivity.
  - split; [eexists; split; [apply make_Prior_eq|reflexivity]|].
    split; [eexists; split; [apply make_PnP_eq|reflexivity]|].
    split; eexists; (split; [reflexivity|reflexivity]).
Qed.

End prior_facts.

(** C7 (as stated).  Construction with [g = None] is not rejected. *)
Lemma Prior_without_potential_not_rejected :
  ~ raises (prior.make_Prior (T:=R) None).
Proof. intros [e He]. discriminate He. Qed.

Lemma Prior_without_potential_deferred_witness :
  exists self,
    prior.make_Prior None = Ok self
    /\ prior.prox sample.autograd_half_square self 3 (PNum 2) []
         {| prior.stepsize_inter := None; prior.max_iter_inter := Some 5%Z;
            prior.tol_inter := None |} = Raise TypeError.
Proof.
  destruct (Prior_without_potential_deferred sample.autograd_half_square
              3 (PNum 2) []) as (self & Hself & _ & _ & _ & _ & Hcap).
  exists self. split; [exact Hself|]. apply Hcap. cbn. lia.
Defined.

(** ** Moreau's identity *)

Section moreau.
Context {T : Type} `{TensorLaws T}.
Variable autograd : (T -> exc T) -> T -> exc T.

Lemma tdiv_tdiv_inv (x : T) (c : R) : c <> 0 -> (x [/] c [/] (1 / c))%T = x.
Proof.
  intros Hc. rewrite !tdiv_def, smul_smul.
  replace (/ (1 / c) * / c) with 1 by (field; assumption).
  apply smul_1.
Qed.

Lemma tadd_tsub_cancel (p x : T) : (p [+] (x [-] p))%T = x.
Proof.
  rewrite tsub_def, tadd_assoc, (tadd_comm p x), <- tadd_assoc.
  rewrite <- (smul_1 p) at 1. rewrite <- smul_plus.
  replace (1 + -1) with 0 by lra. apply tadd_0.
Qed.

Lemma smul_conjugate (x p : T) (c : R) :
  c <> 0 -> (c [*] (x [/] c [-] (1 / c) [*] p))%T = (x [-] p)%T.
Proof.
  intros Hc. rewrite !tsub_def, tdiv_def, smul_tadd, !smul_smul.
  replace (c * / c) with 1 by (field; assumption).
  replace (c * -1 * (1 / c)) with (-1) by (field; assumption).
  now rewrite smul_1.
Qed.

(** The conjugate prox evaluated at [x / gamma] with step [1 / gamma] calls
    the prox of the same prior at [x] with step [gamma]. *)
Lemma prox_conjugate_rescaled (self : prior.object) (x : T) (gamma : R)
    (args : list (pyval T)) (kw : prior.kwargs) :
  gamma <> 0 ->
  prior.prox_conjugate autograd self (x [/] gamma)%T (PNum (1 / gamma)) args None kw
  = (p ← prior.prox autograd self x (PNum gamma) args kw;
     Ok (x [/] gamma [-] (1 / gamma) [*] p)%T).
Proof.
  intros Hg. unfold prior.prox_conjugate, prior.Prior_prox_conjugate. simpl.
  destruct (Req_dec_T (1 / gamma) 0) as [Hz|_].
  { exfalso. apply (Rmult_eq_compat_l gamma) in Hz.
    rewrite Rmult_0_r in Hz. unfold Rdiv in Hz.
    rewrite Rmult_1_l, Rinv_r in Hz by assumption. lra. }
  simpl. rewrite tdiv_tdiv_inv by assumption.
  replace (1 / (1 / gamma)) with gamma by (field; assumption).
  destruct (prior.prox autograd self x (PNum gamma) args kw); reflexivity.
Qed.

(** C3.  Moreau's identity.  For every prior (all classes of the file inherit
    [Prior.prox_conjugate], whose [lamb] defaults to 1), every [x] and every
    [gamma > 0]: when [prox(x, gamma)] returns [p], the call
    [prox_conjugate(x / gamma, 1 / gamma)] returns some [c] with
    [p + gamma * c = x].  For the Tikhonov prior both calls return, the prox
    is [(1 / (gamma + 1)) * x], and the identity holds. *)
Theorem moreau_identity (self : prior.object) (x : T) (gamma : R)
    (args : list (pyval T)) (kw : prior.kwargs) (p : T) :
  0 < gamma ->
  prior.prox autograd self x (PNum gamma) args kw = Ok p ->
  (exists c,
     prior.prox_conjugate autograd self (x [/] gamma)%T (PNum (1 / gamma)) args None kw
     = Ok c
     /\ (p [+] gamma [*] c)%T = x)
  /\ (exists tik pt ct,
        prior.make_Tikhonov = Ok tik
        /\ prior.prox autograd tik x (PNum gamma) [] prior.no_kwargs = Ok pt
        /\ pt = ((1 / (gamma + 1)) [*] x)%T
        /\ prior.prox_conjugate autograd tik (x [/] gamma)%T (PNum (1 / gamma))
             [] None prior.no_kwargs = Ok ct
        /\ (pt [+] gamma [*] ct)%T = x).
Proof.
  intros Hg Hp. split.
  - eexists. rewrite prox_conjugate_rescaled, Hp by lra. split; [reflexivity|].
    rewrite smul_conjugate by lra. apply tadd_tsub_cancel.
  - assert (Ht : prior.prox autograd
                   {| prior.class_of := prior.Tikhonov;
                      prior.module_initialized := false; prior._g := None;
                      prior.explicit_prior := Some true; prior.denoiser := None |}
                   x (PNum gamma) [] prior.no_kwargs
                 = Ok ((1 / (gamma + 1)) [*] x)%T).
    { unfold prior.prox, prior.Tikhonov_prox. simpl.
      destruct (Req_dec_T (gamma + 1) 0); [lra|reflexivity]. }
    eexists _, _, _. split; [apply make_Tikhonov_eq|]. split; [exact Ht|].
    split; [reflexivity|].
    rewrite prox_conjugate_rescaled, Ht by lra. split; [reflexivity|].
    rewrite smul_conjugate by lra. apply tadd_tsub_cancel.
Qed.

End moreau.

Lemma moreau_identity_witness :
  0 < 2
  /\ prior.prox sample.autograd_half_square (sample.PnP_of sample.halve)
       6 (PNum 2) [PNum 0] prior.no_kwargs = Ok (6 / 2)
  /\ (exists c : R,
        prior.prox_conjugate sample.autograd_half_square
          (sample.PnP_of sample.halve)
          (6 [/] 2)%T (PNum (1 / 2)) [PNum 0] None prior.no_kwargs = Ok c
        /\ (6 / 2 [+] 2 [*] c)%T = 6).
Proof.
  assert (Hg : 0 < 2) by lra.
  split; [exact Hg|]. split; [reflexivity|].
  exact (proj1 (moreau_identity sample.autograd_half_square
                  (sample.PnP_of sample.halve) 6 2 [PNum 0]
                  prior.no_kwargs (6 / 2) Hg eq_refl)).
Defined.

(** ** Chambolle-Pock and Condat-Vu transitions *)

Section iterations.
Import optim_iterator.
Context {T : Type} `{Tensor T}.
Variable autograd : (T -> exc T) -> T -> exc T.

Lemma getitem_Some (d : gmap string (pyval T)) key v :
  d !! key = Some v -> getitem d key = Ok v.
Proof. unfold getitem. now intros ->. Qed.

Lemma operator_or_identity_supplied (cur_params : gmap string (pyval T)) name x :
  callable_if_present cur_params name ->
  primal_dual_CP.operator_or_identity cur_params name x
  = Ok (supplied_operator cur_params name x).
Proof.
  intros Hc. unfold primal_dual_CP.operator_or_identity, supplied_operator, getitem.
  destruct (cur_params !! name) as [[r|f]|] eqn:Hl.
  - now destruct (Hc r).
  - rewrite bool_decide_eq_true_2; [reflexivity|].
    apply elem_of_dom. now rewrite Hl.
  - rewrite bool_decide_eq_false_2; [reflexivity|].
    rewrite elem_of_dom, Hl. now intros [? ?].
Qed.

Lemma supplied_operator_absent (cur_params : gmap string (pyval T)) name :
  cur_params !! name = None ->
  supplied_operator cur_params name = fun x => x.
Proof. unfold supplied_operator. now intros ->. Qed.

Lemma cost_of_returns {F} (self : OptimIterator T F) (apply : F -> R) :
  (has_cost self = true -> is_Some (F_fn self)) ->
  returns (primal_dual_CP.cost_of self apply).
Proof.
  unfold primal_dual_CP.cost_of. intros Hc.
  destruct (has_cost self); [|now eexists].
  destruct (Hc eq_refl) as [f ->]. now eexists.
Qed.

(** C1.  One Chambolle-Pock transition with [g_first = False], from the state
    [(x, z, u)]: the dual slot becomes the conjugate prox of the data-fidelity
    term, with step [sigma] and weight [lambda], at [u + sigma * K(z)]; the
    primal slot becomes the prox of the prior, with step [tau], the
    ["stepsize"] entry, at [x - tau * K_adjoint(u_new)]; the third slot is
    [x_new + beta * (x_new - x)].  [K] and [K_adjoint] are the identity when
    the dictionary has no entry for them. *)
Theorem CPIteration_forward_g_first_false
    (kw : init_kwargs T primal_dual_CP.F_type) (X : iterate T) (x z u : T)
    (cur_prior : prior.object) (cur_params : gmap string (pyval T))
    (y : T) (physics : physics T)
    (sigma tau : R) (lambda g_param : pyval T) (x_new : T) :
  kw_g_first kw = false ->
  est X = [x; z; u] ->
  cur_params !! "sigma" = Some (PNum sigma) ->
  cur_params !! "stepsize" = Some (PNum tau) ->
  cur_params !! "lambda" = Some lambda ->
  cur_params !! "g_param" = Some g_param ->
  callable_if_present cur_params "K" ->
  callable_if_present cur_params "K_adjoint" ->
  (kw_has_cost kw = true -> is_Some (kw_F_fn kw)) ->
  let K := supplied_operator cur_params "K" in
  let K_adjoint := supplied_operator cur_params "K_adjoint" in
  let u_new :=
    prox_d_conjugate (kw_data_fidelity kw) (u [+] sigma [*] K z)%T y
      (PNum sigma) lambda in
  prior.prox autograd cur_prior (x [-] tau [*] K_adjoint u_new)%T (PNum tau)
    [g_param] prior.no_kwargs = Ok x_new ->
  (exists X',
     primal_dual_CP.CPIteration_forward autograd
       (primal_dual_CP.CPIteration___init__ kw) X cur_prior cur_params y physics
     = Ok X'
     /\ est X' = [x_new; (x_new [+] kw_beta kw [*] (x_new [-] x))%T; u_new])
  /\ (cur_params !! "K" = None -> K = fun a => a)
  /\ (cur_params !! "K_adjoint" = None -> K_adjoint = fun a => a).
Proof.
  intros Hgf HX Hs Ht Hl Hg HK HKa Hc K K_adjoint u_new Hp.
  split; [|split; apply supplied_operator_absent].
  unfold primal_dual_CP.CPIteration_forward,
    primal_dual_CP.fStepCP_forward, primal_dual_CP.gStepCP_forward.
  rewrite HX.
  cbn [g_first primal_dual_CP.CPIteration___init__ OptimIterator___init__
       f_step g_step fStep___init__ gStep___init__ beta f_g_first
       f_data_fidelity g_g_first].
  rewrite Hgf, !(operator_or_identity_supplied _ _ _ HK).
  rewrite !(getitem_Some _ _ _ Hs), !(getitem_Some _ _ _ Hl).
  cbn [mbind exc_bind py_mul_tensor].
  rewrite !(operator_or_identity_supplied _ _ _ HKa).
  rewrite !(getitem_Some _ _ _ Ht), !(getitem_Some _ _ _ Hg).
  cbn [mbind exc_bind py_mul_tensor].
  fold K K_adjoint. fold u_new. rewrite Hp. cbn [mbind exc_bind fst snd].
  match goal with
  | |- context [primal_dual_CP.cost_of ?s ?a] =>
      destruct (cost_of_returns s a Hc) as [F ->]
  end.
  eexists. split; reflexivity.
Qed.

End iterations.

Lemma params_algo_lookup {T : Type} :
  sample.params_algo (T:=T) !! "sigma" = Some (PNum 1)
  /\ sample.params_algo (T:=T) !! "stepsize" = Some (PNum 1)
  /\ sample.params_algo (T:=T) !! "lambda" = Some (PNum 1)
  /\ sample.params_algo (T:=T) !! "g_param" = Some (PNum (1 / 100))
  /\ sample.params_algo (T:=T) !! "K" = None
  /\ sample.params_algo (T:=T) !! "K_adjoint" = None.
Proof. unfold sample.params_algo. repeat split; by simplify_map_eq. Qed.

Lemma params_algo_callable {T : Type} name :
  sample.params_algo (T:=T) !! name = None ->
  callable_if_present (sample.params_algo (T:=T)) name.
Proof. intros Hn r. rewrite Hn. discriminate. Qed.

Lemma CPIteration_forward_g_first_false_witness :
  exists X',
    primal_dual_CP.CPIteration_forward sample.autograd_half_square
      (primal_dual_CP.CPIteration___init__ (sample.kwargs _))
      {| est := [3; 3; 0]; cost := None |}
      (sample.PnP_of sample.halve) sample.params_algo 2 sample.denoising
    = Ok X'
    /\ est X' =
       [ (3 - 1 * ((0 + 1 * 3 - 1 * 2) / (1 + 1 / 1))) / 2;
         ((3 - 1 * ((0 + 1 * 3 - 1 * 2) / (1 + 1 / 1))) / 2
          + 1 * ((3 - 1 * ((0 + 1 * 3 - 1 * 2) / (1 + 1 / 1))) / 2 - 3));
         (0 + 1 * 3 - 1 * 2) / (1 + 1 / 1) ].
Proof.
  destruct (params_algo_lookup (T:=R)) as (Hs & Ht & Hl & Hg & HK & HKa).
  refine (proj1 (CPIteration_forward_g_first_false sample.autograd_half_square
            (sample.kwargs _) {| est := [3; 3; 0]; cost := None |} 3 3 0
            (sample.PnP_of sample.halve) sample.params_algo 2 sample.denoising
            1 1 (PNum 1) (PNum (1 / 100)) _
            eq_refl eq_refl Hs Ht Hl Hg
            (params_algo_callable _ HK) (params_algo_callable _ HKa)
            (fun H => _) _)).
  - discriminate H.
  - unfold supplied_operator. rewrite HK, HKa. reflexivity.
Defined.

Section condat_vu.
Import optim_iterator.
Context {T : Type} `{Tensor T}.
Variable autograd : (T -> exc T) -> T -> exc T.

(** One Condat-Vu transition, as the source computes it: the dual slot is the
    conjugate prox at [A(2 * x_new - x)]. *)
Lemma CVIteration_forward_eq
    (kw : init_kwargs T demo_PnP_custom_optim.F_type) (X : iterate T) (x u : T)
    (cur_prior : prior.object) (cur_params : gmap string (pyval T))
    (y : T) (physics : physics T)
    (sigma tau : R) (lambda g_param : pyval T) (x_new : T) :
  est X = [x; u] ->
  cur_params !! "sigma" = Some (PNum sigma) ->
  cur_params !! "stepsize" = Some (PNum tau) ->
  cur_params !! "lambda" = Some lambda ->
  cur_params !! "g_param" = Some g_param ->
  (kw_has_cost kw = true -> is_Some (kw_F_fn kw)) ->
  prior.prox autograd cur_prior (x [-] tau [*] A_adjoint physics u)%T (PNum tau)
    [g_param] prior.no_kwargs = Ok x_new ->
  exists X',
    demo_PnP_custom_optim.CVIteration_forward autograd
      (demo_PnP_custom_optim.CVIteration___init__ kw) X cur_prior cur_params
      y physics = Ok X'
    /\ est X' =
       [x_new;
        prox_d_conjugate (kw_data_fidelity kw)
          (A physics (2 [*] x_new [-] x)%T) y (PNum sigma) lambda].
Proof.
  intros HX Hs Ht Hl Hg Hc Hp.
  unfold demo_PnP_custom_optim.CVIteration_forward,
    demo_PnP_custom_optim.gStepCV_forward, demo_PnP_custom_optim.fStepCV_forward.
  rewrite HX.
  rewrite !(getitem_Some _ _ _ Hs), !(getitem_Some _ _ _ Hl),
    !(getitem_Some _ _ _ Ht), !(getitem_Some _ _ _ Hg).
  cbn [mbind exc_bind py_mul_tensor]. rewrite Hp. cbn [mbind exc_bind].
  match goal with
  | |- context [primal_dual_CP.cost_of ?s ?a] =>
      destruct (cost_of_returns s a Hc) as [F ->]
  end.
  eexists. split; reflexivity.
Qed.

(** C2.  One Condat-Vu transition from the state [(x, u)], for a forward
    operator [A] with an adjoint, that is a linear [A]: the primal slot
    becomes the prox of the prior, with step [tau], the ["stepsize"] entry,
    at [x - tau * A_adjoint(u)]; the dual slot becomes the conjugate prox of
    the data-fidelity term, with step [sigma] and weight [lambda], at the
    extrapolated point [2 * A(x_new) - A(x)], which the code evaluates as
    [A(2 * x_new - x)]. *)
Theorem CVIteration_forward_linear
    (kw : init_kwargs T demo_PnP_custom_optim.F_type) (X : iterate T) (x u : T)
    (cur_prior : prior.object) (cur_params : gmap string (pyval T))
    (y : T) (physics : physics T)
    (sigma tau : R) (lambda g_param : pyval T) (x_new : T) :
  linear (A physics) ->
  est X = [x; u] ->
  cur_params !! "sigma" = Some (PNum sigma) ->
  cur_params !! "stepsize" = Some (PNum tau) ->
  cur_params !! "lambda" = Some lambda ->
  cur_params !! "g_param" = Some g_param ->
  (kw_has_cost kw = true -> is_Some (kw_F_fn kw)) ->
  prior.prox autograd cur_prior (x [-] tau [*] A_adjoint physics u)%T (PNum tau)
    [g_param] prior.no_kwargs = Ok x_new ->
  exists X',
    demo_PnP_custom_optim.CVIteration_forward autograd
      (demo_PnP_custom_optim.CVIteration___init__ kw) X cur_prior cur_params
      y physics = Ok X'
    /\ est X' =
       [x_new;
        prox_d_conjugate (kw_data_fidelity kw)
          (2 [*] A physics x_new [-] A physics x)%T y (PNum sigma) lambda].
Proof.
  intros [Hsub Hmul] HX Hs Ht Hl Hg Hc Hp.
  destruct (CVIteration_forward_eq kw X x u cur_prior cur_params y physics
              sigma tau lambda g_param x_new HX Hs Ht Hl Hg Hc Hp)
    as (X' & HX' & Hest).
  exists X'. split; [exact HX'|]. now rewrite Hest, Hsub, Hmul.
Qed.

End condat_vu.

Lemma denoising_linear : linear (A (sample.denoising (T:=R))).
Proof. split; reflexivity. Qed.

Lemma CVIteration_forward_linear_witness :
  exists X',
    demo_PnP_custom_optim.CVIteration_forward sample.autograd_half_square
      (demo_PnP_custom_optim.CVIteration___init__ (sample.kwargs _))
      {| est := [3; 4]; cost := None |}
      (sample.PnP_of sample.halve) sample.params_algo 2 sample.denoising
    = Ok X'
    /\ est X' =
       [ (3 - 1 * 4) / 2;
         (2 * ((3 - 1 * 4) / 2) - 3 - 1 * 2) / (1 + 1 / 1) ].
Proof.
  destruct (params_algo_lookup (T:=R)) as (Hs & Ht & Hl & Hg & _).
  exact (CVIteration_forward_linear sample.autograd_half_square
           (sample.kwargs _) {| est := [3; 4]; cost := None |} 3 4
           (sample.PnP_of sample.halve) sample.params_algo 2 sample.denoising
           1 1 (PNum 1) (PNum (1 / 100)) ((3 - 1 * 4) / 2)
           denoising_linear eq_refl Hs Ht Hl Hg
           (fun H => False_ind _ (Bool.diff_false_true H)) eq_refl).
Defined.

(** ** Arity and shapes of the estimate tuple *)

#[global] Instance scalar_shape_laws : ShapeLaws R.
Proof. split; reflexivity. Qed.

#[global] Instance batch1_shape_laws : ShapeLaws batch1.
Proof.
  split.
  - intros [a|a b] [c|c d]; cbn; intros Hs; try discriminate; reflexivity.
  - intros [a|a b] [c|c d]; cbn; intros Hs; try discriminate; reflexivity.
  - intros c [a|a b]; reflexivity.
  - intros [a|a b] c; reflexivity.
Qed.

Lemma bind_Ok_inv {A B} (m : exc A) (k : A -> exc B) (r : B) :
  m ≫= k = Ok r -> exists a, m = Ok a /\ k a = Ok r.
Proof. destruct m as [a|e]; [intros Hk; now exists a | discriminate]. Qed.

Lemma py_mul_tensor_inv {T} `{Tensor T} (c : pyval T) (a r : T) :
  py_mul_tensor c a = Ok r -> exists c', c = PNum c' /\ r = (c' [*] a)%T.
Proof.
  destruct c as [c'|f]; [|discriminate].
  intros [= <-]. now exists c'.
Qed.

Ltac exc_inv :=
  repeat match goal with
  | H : _ ≫= _ = Ok _ |- _ =>
      apply bind_Ok_inv in H; destruct H as (? & ? & H); cbn beta zeta in H
  | H : py_mul_tensor (PNum _) _ = Ok _ |- _ => cbn [py_mul_tensor] in H
  | H : py_mul_tensor _ _ = Ok _ |- _ =>
      apply py_mul_tensor_inv in H as (? & -> & ->)
  | H : Ok _ = Ok _ |- _ => injection H as <-
  end.

Section shapes.
Import optim_iterator.
Context {T : Type} `{ShapeLaws T}.
Variable autograd : (T -> exc T) -> T -> exc T.

Lemma operator_or_identity_inv (cur_params : gmap string (pyval T)) name x r :
  primal_dual_CP.operator_or_identity cur_params name x = Ok r ->
  r = supplied_operator cur_params name x.
Proof.
  unfold primal_dual_CP.operator_or_identity, supplied_operator, getitem.
  destruct (cur_params !! name) as [[c|f]|] eqn:Hl.
  - rewrite bool_decide_eq_true_2 by (apply elem_of_dom; now rewrite Hl).
    discriminate.
  - rewrite bool_decide_eq_true_2 by (apply elem_of_dom; now rewrite Hl).
    now intros [= <-].
  - rewrite bool_decide_eq_false_2
      by (rewrite elem_of_dom, Hl; now intros [? ?]).
    now intros [= <-].
Qed.

Lemma prox_conjugate_keeps_shape (cur_prior : prior.object) p gamma args lamb kw q :
  prox_keeps_shape autograd cur_prior ->
  prior.prox_conjugate autograd cur_prior p gamma args lamb kw = Ok q ->
  shape q = shape p.
Proof.
  intros Hprox Hq. unfold prior.prox_conjugate, prior.Prior_prox_conjugate in Hq.
  cbn zeta in Hq. destruct gamma as [c|f]; [|discriminate].
  cbn [py_div_tensor] in Hq. exc_inv.
  match goal with Hp : prior.prox _ _ _ _ _ _ = Ok _ |- _ =>
    apply Hprox in Hp; rewrite shape_tdiv in Hp end.
  apply shape_tsub. now rewrite shape_smul.
Qed.

Lemma fStepCP_forward_shape (self : fStep T) x w y physics
    (cur_params : gmap string (pyval T)) r :
  fidelity_keeps_shape (f_data_fidelity self) y ->
  shape w = shape x ->
  primal_dual_CP.fStepCP_forward self x w y physics cur_params = Ok r ->
  shape r = shape x.
Proof.
  intros [Hdf Hdfc] Hw Hr. unfold primal_dual_CP.fStepCP_forward in Hr.
  destruct (f_g_first self); exc_inv.
  - rewrite Hdf. apply shape_tsub. now rewrite shape_smul.
  - rewrite Hdfc. apply shape_tadd. now rewrite shape_smul.
Qed.

Lemma gStepCP_forward_shape (self : gStep) x w (cur_prior : prior.object)
    (cur_params : gmap string (pyval T)) r :
  prox_keeps_shape autograd cur_prior ->
  shape w = shape x ->
  primal_dual_CP.gStepCP_forward autograd self x w cur_prior cur_params = Ok r ->
  shape r = shape x.
Proof.
  intros Hprox Hw Hr. unfold primal_dual_CP.gStepCP_forward in Hr.
  destruct (g_g_first self); exc_inv.
  - apply (prox_conjugate_keeps_shape _ _ _ _ _ _ _ Hprox) in Hr.
    rewrite Hr. apply shape_tadd. now rewrite shape_smul.
  - apply Hprox in Hr.
    rewrite Hr. apply shape_tsub. now rewrite shape_smul.
Qed.

Lemma CPIteration_forward_shapes (self : OptimIterator T primal_dual_CP.F_type)
    (X X' : iterate T) (x z u : T) (cur_prior : prior.object)
    (cur_params : gmap string (pyval T)) (y : T) (physics : physics T) :
  prox_keeps_shape autograd cur_prior ->
  fidelity_keeps_shape (f_data_fidelity (f_step self)) y ->
  est X = [x; z; u] ->
  shape z = shape x ->
  maps_shape (supplied_operator cur_params "K") (shape x) (shape u) ->
  maps_shape (supplied_operator cur_params "K_adjoint") (shape u) (shape x) ->
  primal_dual_CP.CPIteration_forward autograd self X cur_prior cur_params y physics
  = Ok X' ->
  same_shapes (est X') (est X).
Proof.
  intros Hprox Hdf HX Hz HK HKa Hfw.
  unfold primal_dual_CP.CPIteration_forward in Hfw. rewrite HX in Hfw.
  apply bind_Ok_inv in Hfw as (xu & Hxu & Hfw). cbn beta zeta in Hfw.
  exc_inv. rewrite HX. cbn [est].
  assert (Hs : shape xu.1 = shape x /\ shape xu.2 = shape u).
  { destruct (g_first self); exc_inv; cbn [fst snd];
      repeat match goal with
      | Ho : primal_dual_CP.operator_or_identity _ _ _ = Ok _ |- _ =>
          apply operator_or_identity_inv in Ho as ->
      end.
    - match goal with
      | Hg : primal_dual_CP.gStepCP_forward _ _ _ _ _ _ = Ok _ |- _ =>
          apply gStepCP_forward_shape in Hg; [|assumption|now apply HK]
      end.
      match goal with
      | Hf : primal_dual_CP.fStepCP_forward _ _ _ _ _ _ = Ok _ |- _ =>
          apply fStepCP_forward_shape in Hf; [|assumption|now apply HKa]
      end.
      now split.
    - match goal with
      | Hf : primal_dual_CP.fStepCP_forward _ _ _ _ _ _ = Ok _ |- _ =>
          apply fStepCP_forward_shape in Hf; [|assumption|now apply HK]
      end.
      match goal with
      | Hg : primal_dual_CP.gStepCP_forward _ _ _ _ _ _ = Ok _ |- _ =>
          apply gStepCP_forward_shape in Hg; [|assumption|now apply HKa]
      end.
      now split. }
  destruct Hs as [Hx Hu].
  repeat constructor; [exact Hx| |exact Hu].
  rewrite shape_tadd, Hx, Hz; [reflexivity|].
  rewrite shape_smul. symmetry. now apply shape_tsub.
Qed.

Lemma CVIteration_forward_shapes
    (self : OptimIterator T demo_PnP_custom_optim.F_type)
    (X X' : iterate T) (x u : T) (cur_prior : prior.object)
    (cur_params : gmap string (pyval T)) (y : T) (physics : physics T) :
  prox_keeps_shape autograd cur_prior ->
  fidelity_keeps_shape (f_data_fidelity (f_step self)) y ->
  est X = [x; u] ->
  maps_shape (A physics) (shape x) (shape u) ->
  maps_shape (A_adjoint physics) (shape u) (shape x) ->
  demo_PnP_custom_optim.CVIteration_forward autograd self X cur_prior cur_params
    y physics = Ok X' ->
  same_shapes (est X') (est X).
Proof.
  intros Hprox [_ Hdfc] HX HA HAt Hfw.
  unfold demo_PnP_custom_optim.CVIteration_forward in Hfw. rewrite HX in Hfw.
  apply bind_Ok_inv in Hfw as (x' & Hx' & Hfw).
  apply bind_Ok_inv in Hfw as (u' & Hu' & Hfw).
  exc_inv. rewrite HX. cbn [est].
  assert (Hx : shape x' = shape x).
  { unfold demo_PnP_custom_optim.gStepCV_forward in Hx'. exc_inv.
    apply Hprox in Hx'. rewrite Hx'. apply shape_tsub.
    rewrite shape_smul. symmetry. now apply HAt. }
  repeat constructor; [exact Hx|].
  unfold demo_PnP_custom_optim.fStepCV_forward in Hu'. exc_inv.
  rewrite Hdfc. apply HA.
  rewrite shape_tsub; now rewrite shape_smul.
Qed.

Lemma CPIteration_forward_arity (self : OptimIterator T primal_dual_CP.F_type)
    (X X' : iterate T) (cur_prior : prior.object)
    (cur_params : gmap string (pyval T)) (y : T) (physics : physics T) :
  primal_dual_CP.CPIteration_forward autograd self X cur_prior cur_params y physics
  = Ok X' ->
  length (est X) = 3%nat /\ length (est X') = 3%nat.
Proof.
  unfold primal_dual_CP.CPIteration_forward.
  destruct (est X) as [|x [|z [|u [|? ?]]]]; try discriminate.
  intros Hfw. exc_inv. now split.
Qed.

Lemma CVIteration_forward_arity
    (self : OptimIterator T demo_PnP_custom_optim.F_type)
    (X X' : iterate T) (cur_prior : prior.object)
    (cur_params : gmap string (pyval T)) (y : T) (physics : physics T) :
  demo_PnP_custom_optim.CVIteration_forward autograd self X cur_prior cur_params
    y physics = Ok X' ->
  length (est X) = 2%nat /\ length (est X') = 2%nat.
Proof.
  unfold demo_PnP_custom_optim.CVIteration_forward.
  destruct (est X) as [|x [|u [|? ?]]]; try discriminate.
  intros Hfw. exc_inv. now split.
Qed.

End shapes.

Section arity_and_shapes.
Import optim_iterator.
Context {T : Type} `{ShapeLaws T}.
Variable autograd : (T -> exc T) -> T -> exc T.

(** C8 (as amended).  A Chambolle-Pock or Condat-Vu transition that returns,
    returns an estimate tuple of the arity of the one it received (three
    slots, respectively two).  Each slot keeps its shape provided the state is
    well shaped for the operators ([CP_well_shaped], [CV_well_shaped]) and the
    prox of the prior and the proximity operators of the data-fidelity term
    return tensors of the shape of their argument. *)
Theorem transition_keeps_arity_and_shapes
    (cp : OptimIterator T primal_dual_CP.F_type)
    (cv : OptimIterator T demo_PnP_custom_optim.F_type)
    (X X' : iterate T) (cur_prior : prior.object)
    (cur_params : gmap string (pyval T)) (y : T) (physics : physics T) :
  (primal_dual_CP.CPIteration_forward autograd cp X cur_prior cur_params y physics
   = Ok X' ->
   length (est X') = length (est X)
   /\ (prox_keeps_shape autograd cur_prior ->
       fidelity_keeps_shape (f_data_fidelity (f_step cp)) y ->
       CP_well_shaped cur_params (est X) ->
       same_shapes (est X') (est X)))
  /\ (demo_PnP_custom_optim.CVIteration_forward autograd cv X cur_prior cur_params
        y physics = Ok X' ->
      length (est X') = length (est X)
      /\ (prox_keeps_shape autograd cur_prior ->
          fidelity_keeps_shape (f_data_fidelity (f_step cv)) y ->
          CV_well_shaped physics (est X) ->
          same_shapes (est X') (est X))).
Proof.
  split; intros Hfw; split.
  - apply CPIteration_forward_arity in Hfw as [-> ->]. reflexivity.
  - intros Hprox Hdf (x & z & u & HX & Hz & HK & HKa).
    now apply (CPIteration_forward_shapes autograd cp X X' x z u cur_prior
                 cur_params y physics).
  - apply CVIteration_forward_arity in Hfw as [-> ->]. reflexivity.
  - intros Hprox Hdf (x & u & HX & HA & HAt).
    now apply (CVIteration_forward_shapes autograd cv X X' x u cur_prior
                 cur_params y physics).
Qed.

End arity_and_shapes.

Lemma PnP_keep_keeps_shape {T : Type} `{Shaped T, Tensor T} autograd :
  prox_keeps_shape autograd (sample.PnP_of (sample.keep (T:=T))).
Proof.
  intros p gamma [|sigma args] kw q; [discriminate|].
  now intros [= <-].
Qed.

Lemma L2_keeps_shape_B1 (c : R) : fidelity_keeps_shape sample.L2 (B1 c).
Proof.
  split.
  - intros [a|a b] physics [g|f]; reflexivity.
  - intros [a|a b] [s|f] [l|f']; reflexivity.
Qed.

Lemma transition_keeps_arity_and_shapes_witness :
  exists X',
    primal_dual_CP.CPIteration_forward sample.autograd_half_square
      (primal_dual_CP.CPIteration___init__ (sample.kwargs _))
      {| est := [B12 1 2; B12 1 2; B12 0 0]; cost := None |}
      (sample.PnP_of sample.keep) sample.params_algo (B1 2) sample.denoising
    = Ok X'
    /\ length (est X') = 3%nat
    /\ same_shapes (est X') [B12 1 2; B12 1 2; B12 0 0].
Proof.
  eexists. split; [reflexivity|].
  destruct (params_algo_lookup (T:=batch1)) as (_ & _ & _ & _ & HK & HKa).
  destruct (proj1 (transition_keeps_arity_and_shapes sample.autograd_half_square
              (primal_dual_CP.CPIteration___init__ (sample.kwargs _))
              (demo_PnP_custom_optim.CVIteration___init__ (sample.kwargs _))
              {| est := [B12 1 2; B12 1 2; B12 0 0]; cost := None |} _
              (sample.PnP_of sample.keep) sample.params_algo (B1 2)
              sample.denoising) eq_refl) as [Hlen Hshape].
  split; [exact Hlen|].
  apply Hshape.
  - apply PnP_keep_keeps_shape.
  - apply L2_keeps_shape_B1.
  - exists (B12 1 2), (B12 1 2), (B12 0 0).
    split; [reflexivity|]. split; [reflexivity|].
    unfold supplied_operator. rewrite HK, HKa.
    split; intros a Ha; exact Ha.
Defined.

(** C8 (as stated).  From a state whose dual slot has shape [(1,)] next to
    primal slots of shape [(1, 2)], with no operator ["K"] in the dictionary
    and collaborators that keep shapes, the Chambolle-Pock transition returns
    a dual slot of shape [(1, 2)]: [u + sigma * z] broadcasts. *)
Lemma CPIteration_forward_broadcasts :
  exists X',
    primal_dual_CP.CPIteration_forward sample.autograd_half_square
      (primal_dual_CP.CPIteration___init__ (sample.kwargs _))
      {| est := [B12 1 2; B12 1 2; B1 0]; cost := None |}
      (sample.PnP_of sample.keep) sample.params_algo (B1 2) sample.denoising
    = Ok X'
    /\ prox_keeps_shape sample.autograd_half_square (sample.PnP_of (sample.keep (T:=batch1)))
    /\ fidelity_keeps_shape sample.L2 (B1 2)
    /\ shape <$> est X' = [[1; 2]; [1; 2]; [1; 2]]%nat
    /\ shape <$> [B12 1 2; B12 1 2; B1 0] = [[1; 2]; [1; 2]; [1]]%nat
    /\ ~ same_shapes (est X') [B12 1 2; B12 1 2; B1 0].
Proof.
  eexists. split; [reflexivity|].
  split; [apply PnP_keep_keeps_shape|]. split; [apply L2_keeps_shape_B1|].
  split; [reflexivity|]. split; [reflexivity|].
  intros Hs. apply Forall2_cons_1 in Hs as [_ Hs].
  apply Forall2_cons_1 in Hs as [_ Hs]. apply Forall2_cons_1 in Hs as [Hs _].
  discriminate Hs.
Qed.

(** ** The inner gradient descent of [Prior.prox] *)

Section inner_descent.
Context {T : Type} `{Tensor T}.
Variable autograd : (T -> exc T) -> T -> exc T.

Lemma gradient_descent_loop_bounded (grad_f : T -> exc T) (step tol : R)
    (n : nat) (z : T) :
  (forall z, returns (grad_f z)) ->
  exists r k,
    utils.gradient_descent_loop grad_f step tol n z = Ok (r, k)
    /\ (k <= n)%nat
    /\ utils.gradient_iterate grad_f step k z = Ok r.
Proof.
  intros Htot. revert z. induction n as [|n IH]; intros z.
  - exists z, 0%nat. repeat split; reflexivity || lia.
  - destruct (Htot z) as [d Hd]. cbn [utils.gradient_descent_loop].
    rewrite Hd. cbn [mbind exc_bind].
    destruct (Rlt_dec (tdist (z [-] step [*] d) z) tol)%T as [Hlt|Hge].
    + exists (z [-] step [*] d)%T, 1%nat. split; [reflexivity|].
      split; [lia|]. cbn. now rewrite Hd.
    + destruct (IH (z [-] step [*] d)%T) as (r & k & Hloop & Hk & Hit).
      exists r, (S k). rewrite Hloop. split; [reflexivity|].
      split; [lia|]. cbn [utils.gradient_iterate]. now rewrite Hd.
Qed.

(** The descent does not look at how its map is written. *)
Lemma gradient_descent_loop_ext (f1 f2 : T -> exc T) (step tol : R)
    (n : nat) (z : T) :
  (forall z, f1 z = f2 z) ->
  utils.gradient_descent_loop f1 step tol n z
  = utils.gradient_descent_loop f2 step tol n z.
Proof.
  intros Hext. revert z. induction n as [|n IH]; intros z; [reflexivity|].
  cbn [utils.gradient_descent_loop]. rewrite Hext.
  destruct (f2 z) as [d|e]; [|reflexivity]. cbn [mbind exc_bind].
  destruct (Rlt_dec _ _); [reflexivity|]. now rewrite IH.
Qed.

(** The map [Prior.prox] hands to the descent, for the prior built from the
    potential [g]: [gamma * self.grad(z) + (z - x)], where [self.grad] is the
    automatic differentiation of [g]. *)
Lemma Prior_grad_is_autograd (g : T -> list (pyval T) -> exc T)
    (args : list (pyval T)) (self : prior.object) (z : T) :
  prior.make_Prior (Some g) = Ok self ->
  returns (g z args) ->
  prior.grad autograd self z args = autograd (fun x => g x args) z.
Proof.
  intros Hself [v Hv]. rewrite make_Prior_eq in Hself.
  injection Hself as <-.
  unfold prior.grad, prior.Prior_grad, prior.g, prior.Prior_g.
  cbn [prior.class_of prior._g]. rewrite Hv. reflexivity.
Qed.

(** C6.  For a prior built from an explicit potential [g] alone (with [g] and
    its automatic differentiation defined everywhere), [self.grad] is the
    automatic differentiation of [g], and [prox(x, gamma)] is the gradient
    descent on [z |-> gamma * grad_g(z) + (z - x)] started at [x], [grad_g]
    being that gradient; without keyword arguments the inner step size is
    1.0, the cap 50 and the tolerance 1e-3.  Whatever the options and whether
    or not the tolerance is ever met, the descent performs at most
    [max_iter_inter] iterations and returns the iterate it has then
    reached. *)
Theorem Prior_prox_inner_descent (g : T -> list (pyval T) -> exc T) (x : T)
    (gamma : R) (args : list (pyval T)) :
  (forall z, returns (g z args)) ->
  (forall z, returns (autograd (fun x => g x args) z)) ->
  exists self,
    prior.make_Prior (Some g) = Ok self
    /\ (forall z,
          prior.grad autograd self z args = autograd (fun x => g x args) z)
    /\ let grad_g := autograd (fun x => g x args) in
       let grad_f := fun z =>
         d ← grad_g z;
         Ok (gamma [*] d [+] (z [-] x))%T in
       prior.prox autograd self x (PNum gamma) args prior.no_kwargs
       = utils.gradient_descent grad_f x 1 50 (1 / 1000)
       /\ forall kw : prior.kwargs,
            let step := default 1 (prior.stepsize_inter kw) in
            let cap := default 50%Z (prior.max_iter_inter kw) in
            let tol := default (1 / 1000) (prior.tol_inter kw) in
            exists z k,
              utils.gradient_descent_run grad_f x step cap tol = Ok (z, k)
              /\ (k <= Z.to_nat cap)%nat
              /\ utils.gradient_iterate grad_f step k x = Ok z
              /\ prior.prox autograd self x (PNum gamma) args kw = Ok z.
Proof.
  intros Hg Hauto.
  destruct (prior.make_Prior (Some g)) as [self|e] eqn:Hself;
    [|rewrite make_Prior_eq in Hself; discriminate Hself].
  exists self. split; [reflexivity|].
  assert (Hgrad : forall z,
            prior.grad autograd self z args = autograd (fun x => g x args) z)
    by (intros z; apply Prior_grad_is_autograd; [exact Hself | apply Hg]).
  split; [exact Hgrad|]. cbn zeta.
  assert (Hmap : forall z,
            (d ← prior.grad autograd self z args;
             gd ← py_mul_tensor (PNum gamma) d;
             Ok (gd [+] (z [-] x))%T)
            = (d ← autograd (fun x => g x args) z;
               Ok (gamma [*] d [+] (z [-] x))%T)).
  { intros z. rewrite Hgrad.
    destruct (autograd (fun x0 => g x0 args) z); reflexivity. }
  assert (Hprox : forall kw,
            prior.prox autograd self x (PNum gamma) args kw
            = utils.gradient_descent
                (fun z => d ← autograd (fun x => g x args) z;
                          Ok (gamma [*] d [+] (z [-] x))%T)
                x (default 1 (prior.stepsize_inter kw))
                (default 50%Z (prior.max_iter_inter kw))
                (default (1 / 1000) (prior.tol_inter kw))).
  { intros kw. rewrite make_Prior_eq in Hself. injection Hself as <-.
    unfold prior.prox, prior.Prior_prox, utils.gradient_descent,
      utils.gradient_descent_run.
    cbn [prior.class_of]. cbn zeta. f_equal.
    apply gradient_descent_loop_ext. exact Hmap. }
  split; [exact (Hprox prior.no_kwargs)|]. intros kw.
  match goal with
  | |- context [utils.gradient_descent_run ?f _ ?s ?c ?t] =>
      destruct (gradient_descent_loop_bounded f s t (Z.to_nat c) x)
        as (z & k & Hrun & Hk & Hit)
  end.
  { intros z. destruct (Hauto z) as [d Hd]. rewrite Hd. now eexists. }
  exists z, k. split; [exact Hrun|]. split; [exact Hk|]. split; [exact Hit|].
  rewrite Hprox. unfold utils.gradient_descent.
  unfold utils.gradient_descent_run in Hrun. 
  unfold utils.gradient_descent_run. rewrite Hrun. reflexivity.
Qed.

End inner_descent.

Lemma Prior_prox_inner_descent_witness :
  exists self,
    prior.make_Prior (Some sample.half_square) = Ok self
    /\ prior.grad sample.autograd_half_square self 3 []
       = sample.autograd_half_square (fun x => sample.half_square x []) 3
    /\ prior.prox sample.autograd_half_square self 3 (PNum 2) [] prior.no_kwargs
       = utils.gradient_descent
           (fun z =>
              d ← sample.autograd_half_square
                    (fun x => sample.half_square x []) z;
              Ok (2 [*] d [+] (z [-] 3))%T)
           3 1 50 (1 / 1000).
Proof.
  destruct (Prior_prox_inner_descent sample.autograd_half_square
              sample.half_square 3 2 []
              (fun z => ex_intro _ _ eq_refl) (fun z => ex_intro _ _ eq_refl))
    as (self & Hself & Hgrad & Hdef & _).
  exists self. split; [exact Hself|]. split; [apply Hgrad | exact Hdef].
Defined.

(** ** The Tikhonov potential *)

(** C4.  On the batch [[3, 4]] of one sample, [Tikhonov.g] returns
    [0.5 * 5 = 5/2], half the L2 norm, where half the squared norm is
    [25/2]. *)
Theorem Tikhonov_g_is_half_norm :
  exists self,
    prior.make_Tikhonov = Ok self
    /\ prior.g self (B12 3 4) [] = Ok (B1 (5 / 2))
    /\ B1 (5 / 2) <> B1 (0.5 * (3 * 3 + 4 * 4)).
Proof.
  eexists. split; [apply make_Tikhonov_eq|]. split.
  - unfold prior.g, prior.Tikhonov_g. cbn.
    replace (3 * 3 + 4 * 4) with (5 * 5) by lra.
    rewrite sqrt_square by lra. do 2 f_equal. lra.
  - intros [= Heq]. lra.
Qed.

(** The closed forms of [Tikhonov.grad] and [Tikhonov.prox] do agree with the
    potential [x^2 / 2]: on numbers, [grad(x)] is its derivative at [x] and
    [prox(x, gamma)] minimises [0.5 / gamma * (z - x)^2 + z^2 / 2]. *)
Lemma Tikhonov_grad_is_derivative (autograd : (R -> exc R) -> R -> exc R) (x : R) :
  exists tik d,
    prior.make_Tikhonov = Ok tik
    /\ prior.grad autograd tik x [] = Ok d
    /\ derivable_pt_lim (fun z => z * z / 2) x d.
Proof.
  eexists _, x. split; [apply make_Tikhonov_eq|]. split; [reflexivity|].
  intros eps Heps. exists (mkposreal eps Heps). intros h Hh Hlt. cbn in Hlt.
  replace (((x + h) * (x + h) / 2 - x * x / 2) / h - x) with (h / 2)
    by (field; assumption).
  unfold Rdiv. rewrite Rabs_mult, (Rabs_pos_eq (/ 2)) by lra. lra.
Qed.

Lemma Tikhonov_prox_minimises (autograd : (R -> exc R) -> R -> exc R)
    (x gamma z : R) :
  0 < gamma ->
  exists tik p,
    prior.make_Tikhonov = Ok tik
    /\ prior.prox autograd tik x (PNum gamma) [] prior.no_kwargs = Ok p
    /\ 0.5 / gamma * ((p - x) * (p - x)) + p * p / 2
       <= 0.5 / gamma * ((z - x) * (z - x)) + z * z / 2.
Proof.
  intros Hg. eexists _, ((1 / (gamma + 1)) * x).
  split; [apply make_Tikhonov_eq|]. split.
  { unfold prior.prox, prior.Tikhonov_prox. simpl.
    destruct (Req_dec_T (gamma + 1) 0); [lra|reflexivity]. }
  set (p := (1 / (gamma + 1)) * x).
  assert (Hd : 0.5 / gamma * ((z - x) * (z - x)) + z * z / 2
               - (0.5 / gamma * ((p - x) * (p - x)) + p * p / 2)
               = (gamma + 1) / (2 * gamma) * ((z - p) * (z - p))).
  { unfold p. replace 0.5 with (1 / 2) by lra. field. lra. }
  assert (0 <= (gamma + 1) / (2 * gamma) * ((z - p) * (z - p))).
  { apply Rmult_le_pos; [|exact (Rle_0_sqr (z - p))].
    apply Rlt_le, Rdiv_lt_0_compat; lra. }
  lra.
Qed.

(** ** The unrolled builder *)

Section unrolled.
Import unfolded.








End unrolled.



(** * Further properties of the sources *)

(** ** [deepinv/optim/prior.py]: conjugate prox *)

Section conjugate.
Context {T : Type} `{TensorLaws T}.
Variable autograd : (T -> exc T) -> T -> exc T.

Lemma tsub_smul_self (x : T) (c : R) : (x [-] c [*] x)%T = ((1 - c) [*] x)%T.
Proof.
  rewrite tsub_def, smul_smul. rewrite <- (smul_1 x) at 1.
  rewrite <- smul_plus. f_equal. lra.
Qed.

Lemma prox_conjugate_rescaled_weighted (self : prior.object) (x : T)
    (gamma lamb : R) (args : list (pyval T)) (kw : prior.kwargs) :
  gamma <> 0 ->
  prior.prox_conjugate autograd self (x [/] gamma)%T (PNum (1 / gamma)) args
    (Some (PNum lamb)) kw
  = (p ← prior.prox autograd self x (PNum (lamb * gamma)) args kw;
     Ok (x [/] gamma [-] (1 / gamma) [*] p)%T).
Proof.
  intros Hg. unfold prior.prox_conjugate, prior.Prior_prox_conjugate. simpl.
  destruct (Req_dec_T (1 / gamma) 0) as [Hz|_].
  { exfalso. apply (Rmult_eq_compat_l gamma) in Hz.
    rewrite Rmult_0_r in Hz. unfold Rdiv in Hz.
    rewrite Rmult_1_l, Rinv_r in Hz by assumption. lra. }
  simpl. rewrite tdiv_tdiv_inv by assumption.
  replace (lamb / (1 / gamma)) with (lamb * gamma) by (field; assumption).
  destruct (prior.prox autograd self x (PNum (lamb * gamma)) args kw); reflexivity.
Qed.

(** X1.  Moreau's identity with a weight: for every prior, [x], [gamma > 0]
    and weight [lamb], when [prox(x, lamb * gamma)] returns [p], the call
    [prox_conjugate(x / gamma, 1 / gamma, lamb=lamb)] returns some [c] with
    [p + gamma * c = x]. *)
Theorem moreau_identity_weighted (self : prior.object) (x : T) (gamma lamb : R)
    (args : list (pyval T)) (kw : prior.kwargs) (p : T) :
  0 < gamma ->
  prior.prox autograd self x (PNum (lamb * gamma)) args kw = Ok p ->
  exists c,
    prior.prox_conjugate autograd self (x [/] gamma)%T (PNum (1 / gamma)) args
      (Some (PNum lamb)) kw = Ok c
    /\ (p [+] gamma [*] c)%T = x.
Proof.
  intros Hg Hp. eexists.
  rewrite prox_conjugate_rescaled_weighted, Hp by lra. split; [reflexivity|].
  rewrite smul_conjugate by lra. apply tadd_tsub_cancel.
Qed.

(** X2.  The Tikhonov prior is its own conjugate: for [gamma > 0] and a
    weight [lamb >= 0], [prox_conjugate(x, gamma, lamb=lamb)] returns
    [(lamb / (lamb + gamma)) * x]; with the default weight this is the value
    of [prox(x, gamma)]. *)
Theorem Tikhonov_prox_conjugate_closed_form (x : T) (gamma lamb : R) :
  0 < gamma -> 0 <= lamb ->
  exists tik,
    prior.make_Tikhonov = Ok tik
    /\ prior.prox_conjugate autograd tik x (PNum gamma) [] (Some (PNum lamb))
         prior.no_kwargs = Ok ((lamb / (lamb + gamma)) [*] x)%T
    /\ prior.prox_conjugate autograd tik x (PNum gamma) [] None prior.no_kwargs
       = prior.prox autograd tik x (PNum gamma) [] prior.no_kwargs.
Proof.
  intros Hg Hl. eexists. split; [apply make_Tikhonov_eq|].
  assert (Hconj : forall l, 0 <= l ->
            prior.prox_conjugate autograd
              {| prior.class_of := prior.Tikhonov;
                 prior.module_initialized := false; prior._g := None;
                 prior.explicit_prior := Some true; prior.denoiser := None |}
              x (PNum gamma) [] (Some (PNum l)) prior.no_kwargs
            = Ok ((l / (l + gamma)) [*] x)%T).
  { intros l Hl0.
    unfold prior.prox_conjugate, prior.Prior_prox_conjugate, prior.prox,
      prior.Tikhonov_prox. simpl.
    destruct (Req_dec_T gamma 0); [lra|]. simpl.
    assert (Hpos : 0 < l / gamma + 1).
    { apply Rplus_le_lt_0_compat; [|lra].
      apply Rmult_le_pos; [lra|]. apply Rlt_le, Rinv_0_lt_compat, Hg. }
    destruct (Req_dec_T (l / gamma + 1) 0); [lra|]. simpl. f_equal.
    rewrite tdiv_def, !smul_smul, tsub_smul_self. f_equal. field. lra. }
  split; [apply Hconj, Hl|].
  transitivity (Ok ((1 / (1 + gamma)) [*] x)%T).
  - apply (Hconj 1). lra.
  - unfold prior.prox, prior.Tikhonov_prox. simpl.
    destruct (Req_dec_T (gamma + 1) 0); [lra|].
    replace (1 + gamma) with (gamma + 1) by lra. reflexivity.
Qed.

End conjugate.

Lemma moreau_identity_weighted_witness :
  exists c : R,
    prior.prox_conjugate sample.autograd_half_square
      (sample.PnP_of sample.halve) (6 [/] 2)%T (PNum (1 / 2)) [PNum 0]
      (Some (PNum 3)) prior.no_kwargs = Ok c
    /\ (6 / 2 [+] 2 [*] c)%T = 6.
Proof.
  assert (Hg : 0 < 2) by lra.
  exact (moreau_identity_weighted sample.autograd_half_square
           (sample.PnP_of sample.halve) 6 2 3 [PNum 0] prior.no_kwargs (6 / 2)
           Hg eq_refl).
Defined.

Lemma Tikhonov_prox_conjugate_closed_form_witness :
  exists tik,
    prior.make_Tikhonov = Ok tik
    /\ prior.prox_conjugate sample.autograd_half_square tik 6 (PNum 2) []
         (Some (PNum 1)) prior.no_kwargs = Ok ((1 / (1 + 2)) [*] 6)%T.
Proof.
  assert (Hg : 0 < 2) by lra. assert (Hl : 0 <= 1) by lra.
  destruct (Tikhonov_prox_conjugate_closed_form sample.autograd_half_square
              6 2 1 Hg Hl) as (tik & Htik & Hc & _).
  exists tik. split; [exact Htik | exact Hc].
Defined.

(** ** [deepinv/optim/prior.py]: the classes side by side *)

Section prior_classes.
Context {T : Type} `{Tensor T}.
Variable autograd : (T -> exc T) -> T -> exc T.

(** X3.  [prox_conjugate] with the step [gamma = 0.0] raises
    [ZeroDivisionError] for every prior, whatever its class and its prox,
    with the default weight as with a numeric one: [lamb / gamma] is
    evaluated before the prox is called. *)
Theorem prox_conjugate_zero_step (self : prior.object) (x : T)
    (args : list (pyval T)) (lamb : option R) (kw : prior.kwargs) :
  prior.prox_conjugate autograd self x (PNum 0) args (PNum <$> lamb) kw
  = Raise ZeroDivisionError.
Proof.
  unfold prior.prox_conjugate, prior.Prior_prox_conjugate.
  destruct lamb as [l|]; simpl;
    (destruct (Req_dec_T 0 0) as [_|Hne]; [reflexivity | now destruct Hne]).
Qed.

(** X4.  For one denoiser [D]: the gradient of the RED prior is the residual
    [x - D(x, sigma)], and the ScorePrior evaluates to that residual scaled
    by [1 / sigma^2], through [forward] as through a call of the object; at
    [sigma = 0.0] it raises [ZeroDivisionError]. *)
Theorem ScorePrior_forward_scaled_residual (D : T -> pyval T -> T) g
    (x : T) (sigma : R) :
  exists score red,
    prior.make_ScorePrior D g = Ok score
    /\ prior.make_RED D g = Ok red
    /\ prior.grad autograd red x [PNum sigma] = Ok (x [-] D x (PNum sigma))%T
    /\ prior.forward score x [PNum sigma]
       = (if Req_dec_T (sigma * sigma) 0 then Raise ZeroDivisionError
          else Ok ((1 / (sigma * sigma)) [*] (x [-] D x (PNum sigma)))%T)
    /\ prior.__call__ score x [PNum sigma] = prior.forward score x [PNum sigma].
Proof.
  eexists _, _. split; [reflexivity|]. split; [reflexivity|].
  split; [reflexivity|]. split; [|reflexivity].
  unfold prior.forward, prior.ScorePrior_forward. simpl.
  destruct (Req_dec_T (sigma * sigma) 0); reflexivity.
Qed.

(** X5.  A plug-and-play prior built from a denoiser alone has no potential:
    [g], [forward], a call of the object and [grad] (which differentiates
    [g]) all raise [TypeError]; so does [prox] when the noise level
    [sigma_denoiser] is not passed. *)
Theorem PnP_has_no_potential (D : T -> pyval T -> T) (x : T)
    (gamma : pyval T) (args : list (pyval T)) (kw : prior.kwargs) :
  exists pnp,
    prior.make_PnP D None = Ok pnp
    /\ prior.g pnp x args = Raise TypeError
    /\ prior.forward pnp x args = Raise TypeError
    /\ prior.__call__ pnp x args = Raise TypeError
    /\ prior.grad autograd pnp x args = Raise TypeError
    /\ prior.prox autograd pnp x gamma [] kw = Raise TypeError.
Proof.
  eexists. split; [apply make_PnP_eq|]. repeat split.
Qed.

(** X6.  [Tikhonov.prox(x, gamma)] takes exactly these two arguments: a
    further positional argument or the inner-descent keyword
    [stepsize_inter] raises [TypeError].  A step [gamma] that is a callable
    raises [TypeError] at [gamma + 1], and the number [gamma = -1.0] raises
    [ZeroDivisionError]. *)
Theorem Tikhonov_prox_rejects (x : T) (gamma extra : pyval T)
    (args : list (pyval T)) (kw : prior.kwargs) (s : R) (f : T -> T) :
  exists tik,
    prior.make_Tikhonov = Ok tik
    /\ prior.prox autograd tik x gamma (extra :: args) kw = Raise TypeError
    /\ prior.prox autograd tik x gamma []
         {| prior.stepsize_inter := Some s;
            prior.max_iter_inter := prior.max_iter_inter kw;
            prior.tol_inter := prior.tol_inter kw |} = Raise TypeError
    /\ prior.prox autograd tik x (PFun f) [] prior.no_kwargs = Raise TypeError
    /\ prior.prox autograd tik x (PNum (0 - 1)) [] prior.no_kwargs
       = Raise ZeroDivisionError.
Proof.
  eexists. split; [apply make_Tikhonov_eq|].
  do 3 (split; [reflexivity|]).
  unfold prior.prox, prior.Tikhonov_prox. simpl.
  destruct (Req_dec_T (0 - 1 + 1) 0) as [_|Hne]; [reflexivity|].
  destruct Hne. lra.
Qed.

End prior_classes.

Section tikhonov_linear.
Context {T : Type} `{TensorLaws T}.
Variable autograd : (T -> exc T) -> T -> exc T.

(** X7.  [Tikhonov.prox] is linear in [x]: for a step [gamma] other than
    [-1], the prox of [a * x + b * y] is [a * prox(x) + b * prox(y)]. *)
Theorem Tikhonov_prox_linear (x y : T) (a b gamma : R) :
  gamma + 1 <> 0 ->
  exists tik px py,
    prior.make_Tikhonov = Ok tik
    /\ prior.prox autograd tik x (PNum gamma) [] prior.no_kwargs = Ok px
    /\ prior.prox autograd tik y (PNum gamma) [] prior.no_kwargs = Ok py
    /\ prior.prox autograd tik (a [*] x [+] b [*] y)%T (PNum gamma) []
         prior.no_kwargs = Ok (a [*] px [+] b [*] py)%T.
Proof.
  intros Hg.
  assert (Hp : forall w,
            prior.prox autograd
              {| prior.class_of := prior.Tikhonov;
                 prior.module_initialized := false; prior._g := None;
                 prior.explicit_prior := Some true; prior.denoiser := None |}
              w (PNum gamma) [] prior.no_kwargs
            = Ok ((1 / (gamma + 1)) [*] w)%T).
  { intros w. unfold prior.prox, prior.Tikhonov_prox. simpl.
    destruct (Req_dec_T (gamma + 1) 0); [contradiction|reflexivity]. }
  eexists _, _, _. split; [apply make_Tikhonov_eq|].
  split; [apply Hp|]. split; [apply Hp|]. rewrite Hp. f_equal.
  rewrite smul_tadd, !smul_smul.
  now rewrite (Rmult_comm _ a), (Rmult_comm _ b).
Qed.

End tikhonov_linear.

Lemma Tikhonov_prox_linear_witness :
  exists tik px py,
    prior.make_Tikhonov = Ok tik
    /\ prior.prox sample.autograd_half_square tik 6 (PNum 2) []
         prior.no_kwargs = Ok px
    /\ prior.prox sample.autograd_half_square tik 9 (PNum 2) []
         prior.no_kwargs = Ok py
    /\ prior.prox sample.autograd_half_square tik (2 [*] 6 [+] 3 [*] 9)%T
         (PNum 2) [] prior.no_kwargs = Ok (2 [*] px [+] 3 [*] py)%T.
Proof.
  assert (Hg : 2 + 1 <> 0) by lra.
  exact (Tikhonov_prox_linear sample.autograd_half_square 6 9 2 3 2 Hg).
Defined.

(** ** The transitions: the other branch, errors, and what is not read *)

Section transitions.
Import optim_iterator.
Context {T : Type} `{Tensor T}.
Variable autograd : (T -> exc T) -> T -> exc T.

(** X8.  One Chambolle-Pock transition with [g_first = True]: the roles of
    the two terms are swapped.  The dual slot becomes the conjugate prox of
    the prior, with step [sigma], at [u + sigma * K(z)]; the primal slot
    becomes the prox of the data-fidelity term, with step
    [stepsize * lambda], at [x - stepsize * K_adjoint(u_new)]; the slot
    [z], the second of the returned tuple [(x, z, u)], is
    [x_new + beta * (x_new - x)]. *)
Theorem CPIteration_forward_g_first_true
    (kw : init_kwargs T primal_dual_CP.F_type) (X : iterate T) (x z u : T)
    (cur_prior : prior.object) (cur_params : gmap string (pyval T))
    (y : T) (physics : physics T)
    (sigma tau lambda : R) (g_param : pyval T) (u_new : T) :
  kw_g_first kw = true ->
  est X = [x; z; u] ->
  cur_params !! "sigma" = Some (PNum sigma) ->
  cur_params !! "stepsize" = Some (PNum tau) ->
  cur_params !! "lambda" = Some (PNum lambda) ->
  cur_params !! "g_param" = Some g_param ->
  callable_if_present cur_params "K" ->
  callable_if_present cur_params "K_adjoint" ->
  (kw_has_cost kw = true -> is_Some (kw_F_fn kw)) ->
  let K := supplied_operator cur_params "K" in
  let K_adjoint := supplied_operator cur_params "K_adjoint" in
  prior.prox_conjugate autograd cur_prior (u [+] sigma [*] K z)%T (PNum sigma)
    [g_param] None prior.no_kwargs = Ok u_new ->
  let x_new :=
    df_prox (kw_data_fidelity kw) (x [-] tau [*] K_adjoint u_new)%T y physics
      (PNum (tau * lambda)) in
  exists X',
    primal_dual_CP.CPIteration_forward autograd
      (primal_dual_CP.CPIteration___init__ kw) X cur_prior cur_params y physics
    = Ok X'
    /\ est X' = [x_new; (x_new [+] kw_beta kw [*] (x_new [-] x))%T; u_new].
Proof.
  intros Hgf HX Hs Ht Hl Hg HK HKa Hc K K_adjoint Hu x_new.
  unfold primal_dual_CP.CPIteration_forward,
    primal_dual_CP.fStepCP_forward, primal_dual_CP.gStepCP_forward.
  rewrite HX.
  cbn [g_first primal_dual_CP.CPIteration___init__ OptimIterator___init__
       f_step g_step fStep___init__ gStep___init__ beta f_g_first
       f_data_fidelity g_g_first].
  rewrite Hgf, !(operator_or_identity_supplied _ _ _ HK).
  rewrite !(getitem_Some _ _ _ Hs), !(getitem_Some _ _ _ Hg).
  cbn [mbind exc_bind py_mul_tensor]. fold K. rewrite Hu.
  cbn [mbind exc_bind].
  rewrite !(operator_or_identity_supplied _ _ _ HKa).
  rewrite !(getitem_Some _ _ _ Ht), !(getitem_Some _ _ _ Hl).
  cbn [mbind exc_bind py_mul_tensor py_mul fst snd]. fold K_adjoint x_new.
  match goal with
  | |- context [primal_dual_CP.cost_of ?s ?a] =>
      destruct (cost_of_returns s a Hc) as [F ->]
  end.
  eexists. split; reflexivity.
Qed.

(** X9.  A state whose estimate tuple has not the arity of the iteration is
    refused with [ValueError], before anything else is evaluated: three
    slots for Chambolle-Pock, two for Condat-Vu. *)
Theorem forward_wrong_arity
    (cp : OptimIterator T primal_dual_CP.F_type)
    (cv : OptimIterator T demo_PnP_custom_optim.F_type)
    (X : iterate T) (cur_prior : prior.object)
    (cur_params : gmap string (pyval T)) (y : T) (physics : physics T) :
  (length (est X) <> 3%nat ->
   primal_dual_CP.CPIteration_forward autograd cp X cur_prior cur_params y physics
   = Raise ValueError)
  /\ (length (est X) <> 2%nat ->
      demo_PnP_custom_optim.CVIteration_forward autograd cv X cur_prior
        cur_params y physics = Raise ValueError).
Proof.
  unfold primal_dual_CP.CPIteration_forward,
    demo_PnP_custom_optim.CVIteration_forward.
  split; intros Hlen;
    destruct (est X) as [|a [|b [|c [|d l]]]]; cbn in Hlen;
    reflexivity || (exfalso; apply Hlen; reflexivity).
Qed.

(** X10.  Missing parameters surface as [KeyError] on the first key the
    transition reads: ["stepsize"] for Condat-Vu, and ["sigma"] for
    Chambolle-Pock (when the entry ["K"], if any, is a callable), in either
    order of the terms and whatever the prior and the data-fidelity term. *)
Theorem forward_missing_key
    (kw : init_kwargs T primal_dual_CP.F_type)
    (cv : OptimIterator T demo_PnP_custom_optim.F_type)
    (x z u : T) (c : option R) (cur_prior : prior.object)
    (cur_params : gmap string (pyval T)) (y : T) (physics : physics T) :
  (cur_params !! "sigma" = None ->
   callable_if_present cur_params "K" ->
   primal_dual_CP.CPIteration_forward autograd
     (primal_dual_CP.CPIteration___init__ kw)
     {| est := [x; z; u]; cost := c |} cur_prior cur_params y physics
   = Raise (KeyError "sigma"))
  /\ (cur_params !! "stepsize" = None ->
      demo_PnP_custom_optim.CVIteration_forward autograd cv
        {| est := [x; u]; cost := c |} cur_prior cur_params y physics
      = Raise (KeyError "stepsize")).
Proof.
  split.
  - intros Hs HK.
    unfold primal_dual_CP.CPIteration_forward,
      primal_dual_CP.fStepCP_forward, primal_dual_CP.gStepCP_forward.
    cbn [est g_first primal_dual_CP.CPIteration___init__
         OptimIterator___init__ f_step g_step fStep___init__ gStep___init__
         f_g_first g_g_first].
    rewrite !(operator_or_identity_supplied _ _ _ HK).
    unfold getitem. rewrite Hs.
    destruct (kw_g_first kw); reflexivity.
  - intros Ht.
    unfold demo_PnP_custom_optim.CVIteration_forward,
      demo_PnP_custom_optim.gStepCV_forward, getitem.
    cbn [est]. rewrite Ht. reflexivity.
Qed.

Lemma operator_or_identity_number (cur_params : gmap string (pyval T))
    name x r :
  cur_params !! name = Some (PNum r) ->
  primal_dual_CP.operator_or_identity cur_params name x = Raise TypeError.
Proof.
  intros Hl. unfold primal_dual_CP.operator_or_identity, getitem.
  rewrite bool_decide_eq_true_2 by (apply elem_of_dom; now rewrite Hl).
  now rewrite Hl.
Qed.

(** X11.  A parameter ["K"] that is a number and not a callable makes every
    Chambolle-Pock transition raise [TypeError]: [K(z)] is the first thing
    either order of the terms evaluates. *)
Theorem CPIteration_forward_K_not_callable
    (self : OptimIterator T primal_dual_CP.F_type)
    (x z u : T) (c : option R) (cur_prior : prior.object)
    (cur_params : gmap string (pyval T)) (y : T) (physics : physics T) (r : R) :
  cur_params !! "K" = Some (PNum r) ->
  primal_dual_CP.CPIteration_forward autograd self
    {| est := [x; z; u]; cost := c |} cur_prior cur_params y physics
  = Raise TypeError.
Proof.
  intros HK.
  unfold primal_dual_CP.CPIteration_forward. cbn [est].
  rewrite !(operator_or_identity_number _ _ _ _ HK).
  destruct (g_first self); reflexivity.
Qed.

Lemma fStepCP_forward_ignores_physics (self : fStep T) (x w y : T)
    (physics physics' : physics T) (cur_params : gmap string (pyval T)) :
  f_g_first self = false ->
  primal_dual_CP.fStepCP_forward self x w y physics cur_params
  = primal_dual_CP.fStepCP_forward self x w y physics' cur_params.
Proof. unfold primal_dual_CP.fStepCP_forward. now intros ->. Qed.

(** X12.  With the data-fidelity step in its [g_first = False] form, the
    estimate tuple a Chambolle-Pock transition returns (or the exception it
    raises) depends neither on [physics] nor on the cost stored in the
    incoming state: the forward operator only enters through ["K"] and
    ["K_adjoint"]. *)
Theorem CPIteration_forward_ignores_physics
    (self : OptimIterator T primal_dual_CP.F_type) (X X2 : iterate T)
    (cur_prior : prior.object) (cur_params : gmap string (pyval T))
    (y : T) (physics physics2 : physics T) :
  f_g_first (f_step self) = false ->
  est X = est X2 ->
  est <$> primal_dual_CP.CPIteration_forward autograd self X cur_prior
            cur_params y physics
  = est <$> primal_dual_CP.CPIteration_forward autograd self X2 cur_prior
              cur_params y physics2.
Proof.
  intros Hf HX. unfold primal_dual_CP.CPIteration_forward. rewrite HX.
  destruct (est X2) as [|x [|z [|u [|? ?]]]]; try reflexivity.
  match goal with
  | |- est <$> (?m ≫= _) = est <$> (?m' ≫= _) =>
      assert (Hm : m = m'); [|rewrite Hm; destruct m' as [[x' u']|e]]
  end.
  - destruct (g_first self);
      repeat match goal with
      | |- (?a ≫= _) = (?a ≫= _) => destruct a; cbn [mbind exc_bind]
      | |- Raise _ = Raise _ => reflexivity
      end;
      rewrite (fStepCP_forward_ignores_physics _ _ _ _ physics physics2 _ Hf);
      reflexivity.
  - cbn [mbind exc_bind fst snd]. unfold primal_dual_CP.cost_of.
    destruct (has_cost self), (F_fn self); reflexivity.
  - reflexivity.
Qed.

(** X13.  The cost a transition returns: [None] when [has_cost] is off, and
    otherwise the value of [F_fn] at the new primal estimate, the first slot
    of the returned tuple (a transition with [has_cost] on and no [F_fn]
    never returns). *)
Theorem forward_cost
    (cp : OptimIterator T primal_dual_CP.F_type)
    (cv : OptimIterator T demo_PnP_custom_optim.F_type)
    (X X' : iterate T) (cur_prior : prior.object)
    (cur_params : gmap string (pyval T)) (y : T) (physics : physics T) :
  (primal_dual_CP.CPIteration_forward autograd cp X cur_prior cur_params y physics
   = Ok X' ->
   exists x' rest,
     est X' = x' :: rest
     /\ cost X' =
        (if has_cost cp
         then (fun f => f x' cur_prior cur_params y physics) <$> F_fn cp
         else None)
     /\ (has_cost cp = true -> is_Some (F_fn cp)))
  /\ (demo_PnP_custom_optim.CVIteration_forward autograd cv X cur_prior
        cur_params y physics = Ok X' ->
      exists x' rest,
        est X' = x' :: rest
        /\ cost X' =
           (if has_cost cv
            then (fun f => f x' cur_params y physics) <$> F_fn cv
            else None)
        /\ (has_cost cv = true -> is_Some (F_fn cv))).
Proof.
  split; intros Hfw.
  - unfold primal_dual_CP.CPIteration_forward in Hfw.
    destruct (est X) as [|x [|z [|u [|? ?]]]]; try discriminate.
    apply bind_Ok_inv in Hfw as (xu & _ & Hfw). cbn beta zeta in Hfw.
    apply bind_Ok_inv in Hfw as (F & HF & Hfw). injection Hfw as <-.
    eexists _, _. split; [reflexivity|]. cbn [cost].
    unfold primal_dual_CP.cost_of in HF.
    destruct (has_cost cp); [|injection HF as <-; split; [reflexivity|discriminate]].
    destruct (F_fn cp); [|discriminate]. injection HF as <-.
    split; [reflexivity|]. intros _. now eexists.
  - unfold demo_PnP_custom_optim.CVIteration_forward in Hfw.
    destruct (est X) as [|x [|u [|? ?]]]; try discriminate.
    apply bind_Ok_inv in Hfw as (x' & _ & Hfw).
    apply bind_Ok_inv in Hfw as (u' & _ & Hfw).
    apply bind_Ok_inv in Hfw as (F & HF & Hfw). injection Hfw as <-.
    eexists _, _. split; [reflexivity|]. cbn [cost].
    unfold primal_dual_CP.cost_of in HF.
    destruct (has_cost cv); [|injection HF as <-; split; [reflexivity|discriminate]].
    destruct (F_fn cv); [|discriminate]. injection HF as <-.
    split; [reflexivity|]. intros _. now eexists.
Qed.

End transitions.

Lemma PnP_halve_prox_conjugate (p : R) (g_param : pyval R) :
  prior.prox_conjugate sample.autograd_half_square (sample.PnP_of sample.halve)
    p (PNum 1) [g_param] None prior.no_kwargs
  = Ok (p - 1 * (p / 1 / 2)).
Proof.
  unfold prior.prox_conjugate, prior.Prior_prox_conjugate. simpl.
  destruct (Req_dec_T 1 0); [lra|reflexivity].
Qed.

Lemma CPIteration_forward_g_first_true_witness :
  exists X',
    primal_dual_CP.CPIteration_forward sample.autograd_half_square
      (primal_dual_CP.CPIteration___init__ (sample_more.kwargs_g_first _))
      {| est := [3; 3; 0]; cost := None |}
      (sample.PnP_of sample.halve) sample.params_algo 2 sample.denoising
    = Ok X'
    /\ est X' =
       [ (3 - 1 * (0 + 1 * 3 - 1 * ((0 + 1 * 3) / 1 / 2)) + 1 * 1 * 2) / (1 + 1 * 1);
         ((3 - 1 * (0 + 1 * 3 - 1 * ((0 + 1 * 3) / 1 / 2)) + 1 * 1 * 2) / (1 + 1 * 1)
          + 1 * ((3 - 1 * (0 + 1 * 3 - 1 * ((0 + 1 * 3) / 1 / 2)) + 1 * 1 * 2)
                 / (1 + 1 * 1) - 3));
         0 + 1 * 3 - 1 * ((0 + 1 * 3) / 1 / 2) ].
Proof.
  destruct (params_algo_lookup (T:=R)) as (Hs & Ht & Hl & Hg & HK & HKa).
  refine (CPIteration_forward_g_first_true sample.autograd_half_square
            (sample_more.kwargs_g_first _) {| est := [3; 3; 0]; cost := None |}
            3 3 0 (sample.PnP_of sample.halve) sample.params_algo 2
            sample.denoising 1 1 1 (PNum (1 / 100)) _
            eq_refl eq_refl Hs Ht Hl Hg
            (params_algo_callable _ HK) (params_algo_callable _ HKa)
            (fun H => False_ind _ (Bool.diff_false_true H)) _).
  unfold supplied_operator. rewrite HK.
  apply (PnP_halve_prox_conjugate (0 + 1 * 3)).
Defined.

Lemma forward_wrong_arity_witness :
  primal_dual_CP.CPIteration_forward sample.autograd_half_square
    (primal_dual_CP.CPIteration___init__ (sample.kwargs _))
    {| est := [3; 4]; cost := None |}
    (sample.PnP_of sample.halve) sample.params_algo 2 sample.denoising
  = Raise ValueError
  /\ demo_PnP_custom_optim.CVIteration_forward sample.autograd_half_square
       (demo_PnP_custom_optim.CVIteration___init__ (sample.kwargs _))
       {| est := [3; 3; 0]; cost := None |}
       (sample.PnP_of sample.halve) sample.params_algo 2 sample.denoising
     = Raise ValueError.
Proof.
  split.
  - apply (proj1 (forward_wrong_arity sample.autograd_half_square
             (primal_dual_CP.CPIteration___init__ (sample.kwargs _))
             (demo_PnP_custom_optim.CVIteration___init__ (sample.kwargs _))
             {| est := [3; 4]; cost := None |} _ _ _ _)).
    cbn. lia.
  - apply (proj2 (forward_wrong_arity sample.autograd_half_square
             (primal_dual_CP.CPIteration___init__ (sample.kwargs _))
             (demo_PnP_custom_optim.CVIteration___init__ (sample.kwargs _))
             {| est := [3; 3; 0]; cost := None |} _ _ _ _)).
    cbn. lia.
Defined.

Lemma forward_missing_key_witness :
  primal_dual_CP.CPIteration_forward sample.autograd_half_square
    (primal_dual_CP.CPIteration___init__ (sample.kwargs _))
    {| est := [3; 3; 0]; cost := None |}
    (sample.PnP_of sample.halve) ∅ 2 sample.denoising
  = Raise (KeyError "sigma")
  /\ demo_PnP_custom_optim.CVIteration_forward sample.autograd_half_square
       (demo_PnP_custom_optim.CVIteration___init__ (sample.kwargs _))
       {| est := [3; 4]; cost := None |}
       (sample.PnP_of sample.halve) ∅ 2 sample.denoising
     = Raise (KeyError "stepsize").
Proof.
  pose proof (forward_missing_key sample.autograd_half_square
                (sample.kwargs _)
                (demo_PnP_custom_optim.CVIteration___init__ (sample.kwargs _))
                3 3 0 None (sample.PnP_of sample.halve) ∅ 2 sample.denoising)
    as [Hcp _].
  pose proof (forward_missing_key sample.autograd_half_square
                (sample.kwargs _)
                (demo_PnP_custom_optim.CVIteration___init__ (sample.kwargs _))
                3 4 0 None (sample.PnP_of sample.halve) ∅ 2 sample.denoising)
    as [_ Hcv].
  split.
  - apply Hcp; [reflexivity|]. intros r. rewrite lookup_empty. discriminate.
  - apply Hcv. reflexivity.
Defined.

Lemma CPIteration_forward_K_not_callable_witness :
  primal_dual_CP.CPIteration_forward sample.autograd_half_square
    (primal_dual_CP.CPIteration___init__ (sample.kwargs _))
    {| est := [3; 3; 0]; cost := None |}
    (sample.PnP_of sample.halve) sample_more.params_K_number 2 sample.denoising
  = Raise TypeError.
Proof.
  apply (CPIteration_forward_K_not_callable sample.autograd_half_square
           _ 3 3 0 None _ sample_more.params_K_number 2 sample.denoising 2).
  reflexivity.
Defined.

Lemma CPIteration_forward_ignores_physics_witness :
  est <$> primal_dual_CP.CPIteration_forward sample.autograd_half_square
            (primal_dual_CP.CPIteration___init__ (sample.kwargs _))
            {| est := [3; 3; 0]; cost := None |}
            (sample.PnP_of sample.halve) sample.params_algo 2 sample.denoising
  = est <$> primal_dual_CP.CPIteration_forward sample.autograd_half_square
              (primal_dual_CP.CPIteration___init__ (sample.kwargs _))
              {| est := [3; 3; 0]; cost := Some 7 |}
              (sample.PnP_of sample.halve) sample.params_algo 2 sample.quadratic.
Proof.
  apply CPIteration_forward_ignores_physics; reflexivity.
Defined.

Lemma forward_cost_witness :
  exists X' x' rest,
    primal_dual_CP.CPIteration_forward sample.autograd_half_square
      (primal_dual_CP.CPIteration___init__ (sample.kwargs _))
      {| est := [3; 3; 0]; cost := Some 7 |}
      (sample.PnP_of sample.keep) sample.params_algo 2 sample.denoising
    = Ok X'
    /\ est X' = x' :: rest
    /\ cost X' = None.
Proof.
  eexists.
  destruct (proj1 (forward_cost sample.autograd_half_square
              (primal_dual_CP.CPIteration___init__ (sample.kwargs _))
              (demo_PnP_custom_optim.CVIteration___init__ (sample.kwargs _))
              {| est := [3; 3; 0]; cost := Some 7 |} _
              (sample.PnP_of sample.keep) sample.params_algo 2
              sample.denoising) eq_refl) as (x' & rest & Hest & Hcost & _).
  exists x', rest. split; [reflexivity|]. split; [exact Hest | exact Hcost].
Defined.

(** ** Fixed points of the transitions *)

Section fixed_points.
Import optim_iterator.
Context {T : Type} `{TensorLaws T}.
Variable autograd : (T -> exc T) -> T -> exc T.

Lemma tsub_self (x : T) (c : R) : (x [+] c [*] (x [-] x))%T = x.
Proof.
  rewrite <- (smul_1 x) at 3. rewrite tsub_smul_self, smul_smul.
  replace (c * (1 - 1)) with 0 by lra. apply tadd_0.
Qed.

Lemma double_minus (x : T) : (2 [*] x [-] x)%T = x.
Proof.
  rewrite tsub_def, <- smul_plus.
  replace (2 + -1) with 1 by lra. apply smul_1.
Qed.

(** X14.  The second slot [z] of the tuple [(x, z, u)] a Chambolle-Pock
    transition returns is the extrapolation [x_new + beta * (x_new - x)] of
    the returned first slot, in either order of the terms.  Hence with
    [beta = 0] the returned second slot is the returned first one, and a
    state that the transition maps to itself has its second slot equal to
    its first. *)
Theorem CPIteration_forward_extrapolation
    (self : OptimIterator T primal_dual_CP.F_type) (X X' : iterate T)
    (x z u : T) (cur_prior : prior.object)
    (cur_params : gmap string (pyval T)) (y : T) (physics : physics T) :
  primal_dual_CP.CPIteration_forward autograd self X cur_prior cur_params y physics
  = Ok X' ->
  est X = [x; z; u] ->
  exists x' z' u',
    est X' = [x'; z'; u']
    /\ z' = (x' [+] beta self [*] (x' [-] x))%T
    /\ (beta self = 0 -> z' = x')
    /\ (est X' = est X -> z = x).
Proof.
  intros Hfw HX. unfold primal_dual_CP.CPIteration_forward in Hfw.
  rewrite HX in Hfw.
  apply bind_Ok_inv in Hfw as (xu & _ & Hfw). cbn beta zeta in Hfw.
  apply bind_Ok_inv in Hfw as (F & _ & Hfw). injection Hfw as <-.
  eexists _, _, _. split; [reflexivity|]. split; [reflexivity|]. split.
  - intros ->. apply tadd_0.
  - cbn [est]. rewrite HX. intros [= Hx Hz _]. rewrite <- Hz, Hx.
    apply tsub_self.
Qed.

(** X15.  A state [(x, u)] that a Condat-Vu transition maps to itself has
    its dual slot equal to the conjugate prox of the data-fidelity term at
    [A(x)], and its primal slot is a fixed point of the prior's prox step. *)
Theorem CVIteration_forward_fixed_point
    (self : OptimIterator T demo_PnP_custom_optim.F_type) (X X' : iterate T)
    (x u : T) (cur_prior : prior.object)
    (cur_params : gmap string (pyval T)) (y : T) (physics : physics T) :
  demo_PnP_custom_optim.CVIteration_forward autograd self X cur_prior cur_params
    y physics = Ok X' ->
  est X = [x; u] ->
  est X' = est X ->
  exists (tau : R) (g_param sigma lambda : pyval T),
    cur_params !! "stepsize" = Some (PNum tau)
    /\ cur_params !! "g_param" = Some g_param
    /\ cur_params !! "sigma" = Some sigma
    /\ cur_params !! "lambda" = Some lambda
    /\ prior.prox autograd cur_prior (x [-] tau [*] A_adjoint physics u)%T
         (PNum tau) [g_param] prior.no_kwargs = Ok x
    /\ u = prox_d_conjugate (f_data_fidelity (f_step self)) (A physics x) y
             sigma lambda.
Proof.
  intros Hfw HX Heq. unfold demo_PnP_custom_optim.CVIteration_forward in Hfw.
  rewrite HX in Hfw.
  apply bind_Ok_inv in Hfw as (x' & Hx' & Hfw).
  apply bind_Ok_inv in Hfw as (u' & Hu' & Hfw).
  apply bind_Ok_inv in Hfw as (F & _ & Hfw). injection Hfw as <-.
  cbn [est] in Heq. rewrite HX in Heq. injection Heq as -> ->.
  unfold demo_PnP_custom_optim.gStepCV_forward in Hx'.
  unfold demo_PnP_custom_optim.fStepCV_forward in Hu'.
  unfold getitem in Hx', Hu'.
  destruct (cur_params !! "stepsize") as [[tau|f]|]; try discriminate.
  destruct (cur_params !! "g_param") as [g_param|]; try discriminate.
  destruct (cur_params !! "sigma") as [sigma|]; try discriminate.
  destruct (cur_params !! "lambda") as [lambda|]; try discriminate.
  cbn in Hx', Hu'. injection Hu' as Hu'.
  exists tau, g_param, sigma, lambda. do 4 (split; [reflexivity|]).
  split; [exact Hx'|]. rewrite double_minus in Hu'. now symmetry.
Qed.

End fixed_points.

Lemma CPIteration_forward_extrapolation_witness :
  exists X',
    primal_dual_CP.CPIteration_forward sample.autograd_half_square
      (primal_dual_CP.CPIteration___init__ (sample.kwargs _))
      {| est := [0; 0; 0]; cost := None |}
      (sample.PnP_of sample.keep) sample.params_algo 0 sample.denoising
    = Ok X'
    /\ est X' = [0; 0; 0]
    /\ exists x' z' u',
         est X' = [x'; z'; u'] /\ z' = (x' [+] 1 [*] (x' [-] 0))%T.
Proof.
  eexists. split; [reflexivity|]. split.
  - cbn. repeat f_equal; lra.
  - destruct (CPIteration_forward_extrapolation sample.autograd_half_square
                (primal_dual_CP.CPIteration___init__ (sample.kwargs _))
                {| est := [0; 0; 0]; cost := None |} _ 0 0 0
                (sample.PnP_of sample.keep) sample.params_algo 0
                sample.denoising eq_refl eq_refl)
      as (x' & z' & u' & Hest & Hz & _).
    exists x', z', u'. split; [exact Hest | exact Hz].
Defined.

Lemma CVIteration_forward_fixed_point_witness :
  exists X',
    demo_PnP_custom_optim.CVIteration_forward sample.autograd_half_square
      (demo_PnP_custom_optim.CVIteration___init__ (sample.kwargs _))
      {| est := [0; 0]; cost := None |}
      (sample.PnP_of sample.keep) sample.params_algo 0 sample.denoising
    = Ok X'
    /\ est X' = [0; 0]
    /\ exists sigma lambda : pyval R,
         0 = prox_d_conjugate sample.L2 (A sample.denoising 0) 0 sigma lambda.
Proof.
  eexists. split; [reflexivity|].
  match goal with
  | |- est ?X' = _ /\ _ =>
      assert (Heq : est X' = est {| est := [0; 0]; cost := None |})
        by (cbn; repeat f_equal; lra);
      split; [exact Heq|];
      destruct (CVIteration_forward_fixed_point sample.autograd_half_square
                  (demo_PnP_custom_optim.CVIteration___init__ (sample.kwargs _))
                  {| est := [0; 0]; cost := None |} X' 0 0
                  (sample.PnP_of sample.keep) sample.params_algo 0
                  sample.denoising eq_refl eq_refl Heq)
        as (tau & g_param & sigma & lambda & _ & _ & _ & _ & _ & Hu)
  end.
  exists sigma, lambda. exact Hu.
Defined.

Section tikhonov_refused.
Import optim_iterator.
Context {T : Type} `{Tensor T}.
Variable autograd : (T -> exc T) -> T -> exc T.

(** X16.  A Tikhonov prior cannot drive these transitions: the prior steps
    pass the extra argument [g_param] to [prox], which [Tikhonov.prox] does
    not take.  With a well-formed dictionary, the Condat-Vu transition and
    the Chambolle-Pock transition with [g_first = False] raise
    [TypeError]. *)
Theorem Tikhonov_prior_refused
    (kw : init_kwargs T primal_dual_CP.F_type)
    (cv : OptimIterator T demo_PnP_custom_optim.F_type)
    (x z u : T) (c : option R) (cur_params : gmap string (pyval T))
    (y : T) (physics : physics T)
    (sigma tau : R) (lambda g_param : pyval T) :
  kw_g_first kw = false ->
  cur_params !! "sigma" = Some (PNum sigma) ->
  cur_params !! "stepsize" = Some (PNum tau) ->
  cur_params !! "lambda" = Some lambda ->
  cur_params !! "g_param" = Some g_param ->
  callable_if_present cur_params "K" ->
  callable_if_present cur_params "K_adjoint" ->
  exists tik,
    prior.make_Tikhonov = Ok tik
    /\ primal_dual_CP.CPIteration_forward autograd
         (primal_dual_CP.CPIteration___init__ kw)
         {| est := [x; z; u]; cost := c |} tik cur_params y physics
       = Raise TypeError
    /\ demo_PnP_custom_optim.CVIteration_forward autograd cv
         {| est := [x; u]; cost := c |} tik cur_params y physics
       = Raise TypeError.
Proof.
  intros Hgf Hs Ht Hl Hg HK HKa. eexists. split; [apply make_Tikhonov_eq|].
  split.
  - unfold primal_dual_CP.CPIteration_forward,
      primal_dual_CP.fStepCP_forward, primal_dual_CP.gStepCP_forward.
    cbn [est g_first primal_dual_CP.CPIteration___init__
         OptimIterator___init__ f_step g_step fStep___init__ gStep___init__
         f_g_first g_g_first].
    rewrite Hgf, !(operator_or_identity_supplied _ _ _ HK).
    rewrite !(getitem_Some _ _ _ Hs), !(getitem_Some _ _ _ Hl).
    cbn [mbind exc_bind py_mul_tensor].
    rewrite !(operator_or_identity_supplied _ _ _ HKa).
    rewrite !(getitem_Some _ _ _ Ht), !(getitem_Some _ _ _ Hg).
    reflexivity.
  - unfold demo_PnP_custom_optim.CVIteration_forward,
      demo_PnP_custom_optim.gStepCV_forward.
    cbn [est].
    rewrite !(getitem_Some _ _ _ Ht), !(getitem_Some _ _ _ Hg).
    reflexivity.
Qed.

End tikhonov_refused.

Lemma Tikhonov_prior_refused_witness :
  exists tik,
    prior.make_Tikhonov = Ok tik
    /\ primal_dual_CP.CPIteration_forward sample.autograd_half_square
         (primal_dual_CP.CPIteration___init__ (sample.kwargs _))
         {| est := [3; 3; 0]; cost := None |} tik sample.params_algo 2
         sample.denoising
       = Raise TypeError.
Proof.
  destruct (params_algo_lookup (T:=R)) as (Hs & Ht & Hl & Hg & HK & HKa).
  destruct (Tikhonov_prior_refused sample.autograd_half_square
              (sample.kwargs _)
              (demo_PnP_custom_optim.CVIteration___init__ (sample.kwargs _))
              3 3 0 None sample.params_algo 2 sample.denoising
              1 1 (PNum 1) (PNum (1 / 100)) eq_refl Hs Ht Hl Hg
              (params_algo_callable _ HK) (params_algo_callable _ HKa))
    as (tik & Htik & Hcp & _).
  exists tik. split; [exact Htik | exact Hcp].
Defined.

(** ** [deepinv/models/utils.py]: channel-first and channel-last images *)

Section tables.
Context {V : Type}.
Implicit Types (l : list V) (g : nat -> list V).

Lemma bind_seq_length g (m s n : nat) :
  (forall i, (s <= i < s + n)%nat -> length (g i) = m) ->
  length (seq s n ≫= g) = (n * m)%nat.
Proof.
  revert s. induction n as [|n IH]; intros s Hg; [reflexivity|].
  cbn [seq]. rewrite bind_cons, length_app, Hg, IH by lia || (intros; apply Hg; lia).
  lia.
Qed.

Lemma bind_seq_lookup g (m s n i r : nat) :
  (forall i, (s <= i < s + n)%nat -> length (g i) = m) ->
  (i < n)%nat -> (r < m)%nat ->
  (seq s n ≫= g) !! (i * m + r)%nat = g (s + i)%nat !! r.
Proof.
  revert s i. induction n as [|n IH]; intros s i Hg Hi Hr; [lia|].
  cbn [seq]. rewrite bind_cons. destruct i as [|i].
  - rewrite lookup_app_l by (rewrite Hg; lia).
    now rewrite Nat.add_0_r.
  - rewrite lookup_app_r by (rewrite Hg; lia).
    rewrite Hg by lia.
    replace (S i * m + r - m)%nat with (i * m + r)%nat by lia.
    rewrite IH by (lia || (intros; apply Hg; lia)).
    f_equal. f_equal. lia.
Qed.

Lemma bind_seq_ext g g' (s n : nat) :
  (forall i, (s <= i < s + n)%nat -> g i = g' i) ->
  seq s n ≫= g = seq s n ≫= g'.
Proof.
  revert s. induction n as [|n IH]; intros s Hg; [reflexivity|].
  cbn [seq]. rewrite !bind_cons, Hg, IH by lia || (intros; apply Hg; lia).
  reflexivity.
Qed.

(** Two nested enumerations are one enumeration of the flat index. *)
Lemma bind_seq_flatten (h : nat -> list V) (m s n : nat) :
  (seq s n ≫= fun i => seq 0 m ≫= fun j => h (i * m + j)%nat)
  = seq (s * m) (n * m) ≫= h.
Proof.
  revert s. induction n as [|n IH]; intros s; [reflexivity|].
  cbn [seq]. rewrite bind_cons, IH.
  replace (S n * m)%nat with (m + n * m)%nat by lia.
  rewrite seq_app, bind_app. f_equal.
  - transitivity (seq (s * m + 0) m ≫= h); [|now rewrite Nat.add_0_r].
    rewrite <- fmap_add_seq, list_fmap_bind. reflexivity.
  - f_equal. f_equal. lia.
Qed.

Lemma bind_seq_lookup_all l (s : nat) :
  (seq s (length l) ≫= fun n => option_list (l !! (n - s)%nat)) = l.
Proof.
  revert s. induction l as [|x l IH]; intros s; [reflexivity|].
  cbn [length seq]. rewrite bind_cons, Nat.sub_diag. cbn. f_equal.
  rewrite <- (IH (S s)) at 2. apply bind_seq_ext. intros i Hi.
  replace (i - s)%nat with (S (i - S s)) by lia. reflexivity.
Qed.

End tables.

Section images.
Import models_utils.
Context {V : Type}.
Implicit Types (a t : ndarray V).

Lemma entry3_bound (d0 d1 d2 i j k : nat) :
  (i < d0)%nat -> (j < d1)%nat -> (k < d2)%nat ->
  (i * (d1 * d2) + j * d2 + k < d0 * (d1 * d2))%nat.
Proof.
  intros Hi Hj Hk.
  assert (j * d2 + k < d1 * d2)%nat by nia.
  nia.
Qed.

Lemma table3_length (d0 d1 d2 : nat) (f : nat -> nat -> nat -> option V) :
  (forall i j k, (i < d0)%nat -> (j < d1)%nat -> (k < d2)%nat ->
                 is_Some (f i j k)) ->
  length (table3 d0 d1 d2 f) = (d0 * (d1 * d2))%nat.
Proof.
  intros Hf. unfold table3.
  apply bind_seq_length. intros i Hi.
  rewrite (bind_seq_length _ d2); [lia|]. intros j Hj.
  rewrite (bind_seq_length _ 1); [lia|]. intros k Hk.
  destruct (Hf i j k) as [v ->]; [lia..|]. reflexivity.
Qed.

Lemma table3_lookup (d0 d1 d2 : nat) (f : nat -> nat -> nat -> option V)
    (i j k : nat) :
  (forall i j k, (i < d0)%nat -> (j < d1)%nat -> (k < d2)%nat ->
                 is_Some (f i j k)) ->
  (i < d0)%nat -> (j < d1)%nat -> (k < d2)%nat ->
  entry3 (table3 d0 d1 d2 f) d1 d2 i j k = f i j k.
Proof.
  intros Hf Hi Hj Hk. unfold entry3, table3.
  assert (Hk1 : forall i j k, (i < d0)%nat -> (j < d1)%nat -> (k < d2)%nat ->
                  length (option_list (f i j k)) = 1%nat).
  { intros i' j' k' ? ? ?. destruct (Hf i' j' k') as [v ->]; auto. }
  assert (Hj1 : forall i j, (i < d0)%nat -> (j < d1)%nat ->
                  length (seq 0 d2 ≫= fun k => option_list (f i j k)) = d2).
  { intros i' j' ? ?. rewrite (bind_seq_length _ 1); [lia|].
    intros k' ?. apply Hk1; lia. }
  rewrite <- Nat.add_assoc.
  rewrite (bind_seq_lookup _ (d1 * d2)); [| |lia|nia].
  2:{ intros i' ?. rewrite (bind_seq_length _ d2); [lia|].
      intros j' ?. apply Hj1; lia. }
  rewrite (bind_seq_lookup _ d2); [| |lia|lia].
  2:{ intros j' ?. apply Hj1; lia. }
  replace k with (k * 1 + 0)%nat at 1 by lia.
  rewrite (bind_seq_lookup _ 1); [| |lia|lia].
  2:{ intros k' ?. apply Hk1; lia. }
  cbn. destruct (Hf i j k) as [v ->]; auto.
Qed.

Lemma table3_ext (d0 d1 d2 : nat) (f f' : nat -> nat -> nat -> option V) :
  (forall i j k, (i < d0)%nat -> (j < d1)%nat -> (k < d2)%nat ->
                 f i j k = f' i j k) ->
  table3 d0 d1 d2 f = table3 d0 d1 d2 f'.
Proof.
  intros Hf. unfold table3.
  apply bind_seq_ext. intros i ?. apply bind_seq_ext. intros j ?.
  apply bind_seq_ext. intros k ?. rewrite Hf by lia. reflexivity.
Qed.

Lemma table3_entry3 (l : list V) (d0 d1 d2 : nat) :
  length l = (d0 * (d1 * d2))%nat ->
  table3 d0 d1 d2 (entry3 l d1 d2) = l.
Proof.
  intros Hl. unfold table3, entry3.
  transitivity (seq 0 (length l) ≫= fun n => option_list (l !! (n - 0)%nat));
    [|apply bind_seq_lookup_all].
  rewrite Hl.
  change (seq 0 (d0 * (d1 * d2))) with (seq (0 * (d1 * d2)) (d0 * (d1 * d2))).
  rewrite <- (bind_seq_flatten _ (d1 * d2) 0 d0).
  apply bind_seq_ext. intros i _.
  change (seq 0 (d1 * d2)) with (seq (0 * d2) (d1 * d2)).
  rewrite <- (bind_seq_flatten
                (fun n => option_list (l !! (i * (d1 * d2) + n - 0)%nat)) d2 0 d1).
  apply bind_seq_ext. intros j _. apply bind_seq_ext. intros k _.
  do 2 f_equal. lia.
Qed.

End images.

Section image_round_trips.
Import models_utils.
Context {V : Type}.

Lemma entry3_is_Some (l : list V) (d0 d1 d2 i j k : nat) :
  length l = (d0 * (d1 * d2))%nat ->
  (i < d0)%nat -> (j < d1)%nat -> (k < d2)%nat ->
  is_Some (entry3 l d1 d2 i j k).
Proof.
  intros Hl Hi Hj Hk. apply lookup_lt_is_Some. rewrite Hl.
  now apply entry3_bound.
Qed.

Lemma well_formed_3 (sh : list nat) (d : list V) (d0 d1 d2 : nat) :
  sh = [d0; d1; d2] ->
  well_formed {| shape := sh; data := d |} <->
  length d = (d0 * (d1 * d2))%nat.
Proof.
  intros ->. unfold well_formed. cbn. rewrite Nat.mul_1_r. reflexivity.
Qed.

(** X17.  [tensor2array] turns a channel-first image of shape [(C, H, W)]
    into the channel-last array of shape [(H, W, C)] with
    [out[h][w][c] = img[c][h][w]], and [array2tensor] undoes it:
    [array2tensor(tensor2array(img))] is [img]. *)
Theorem array2tensor_tensor2array (t : ndarray V) (C H W : nat) :
  well_formed t ->
  shape t = [C; H; W] ->
  exists a,
    tensor2array t = inr a
    /\ shape a = [H; W; C]
    /\ well_formed a
    /\ (forall h w c, (h < H)%nat -> (w < W)%nat -> (c < C)%nat ->
          entry3 (data a) W C h w c = entry3 (data t) H W c h w)
    /\ array2tensor a = inr t.
Proof.
  destruct t as [sh d]. cbn [shape]. intros Hwf ->.
  apply (well_formed_3 _ _ C H W eq_refl) in Hwf.
  assert (Hsome : forall i j k, (i < H)%nat -> (j < W)%nat -> (k < C)%nat ->
                    is_Some (entry3 d H W k i j)).
  { intros i j k ? ? ?. now apply (entry3_is_Some d C H W). }
  eexists. split; [reflexivity|]. split; [reflexivity|]. split.
  { apply (well_formed_3 _ _ H W C eq_refl). now apply table3_length. }
  split.
  { intros h w c ? ? ?. cbn [data].
    now apply (table3_lookup H W C (fun i j k => entry3 d H W k i j)). }
  unfold array2tensor, permute_201. cbn [shape data]. do 2 f_equal.
  rewrite (table3_ext C H W _ (entry3 d H W)).
  - now apply table3_entry3.
  - intros k i j ? ? ?.
    now apply (table3_lookup H W C (fun i j k => entry3 d H W k i j)).
Qed.

(** X18.  The other way round: [array2tensor] turns a channel-last array of
    shape [(H, W, C)] into the channel-first tensor of shape [(C, H, W)],
    and [tensor2array(array2tensor(img))] is [img]. *)
Theorem tensor2array_array2tensor (a : ndarray V) (H W C : nat) :
  well_formed a ->
  shape a = [H; W; C] ->
  exists t,
    array2tensor a = inr t
    /\ shape t = [C; H; W]
    /\ well_formed t
    /\ (forall c h w, (c < C)%nat -> (h < H)%nat -> (w < W)%nat ->
          entry3 (data t) H W c h w = entry3 (data a) W C h w c)
    /\ tensor2array t = inr a.
Proof.
  destruct a as [sh d]. cbn [shape]. intros Hwf ->.
  apply (well_formed_3 _ _ H W C eq_refl) in Hwf.
  assert (Hsome : forall k i j, (k < C)%nat -> (i < H)%nat -> (j < W)%nat ->
                    is_Some (entry3 d W C i j k)).
  { intros k i j ? ? ?. now apply (entry3_is_Some d H W C). }
  eexists. split; [reflexivity|]. split; [reflexivity|]. split.
  { apply (well_formed_3 _ _ C H W eq_refl). now apply table3_length. }
  split.
  { intros c h w ? ? ?. cbn [data].
    now apply (table3_lookup C H W (fun k i j => entry3 d W C i j k)). }
  unfold tensor2array, np_transpose_120. cbn [shape data]. do 2 f_equal.
  rewrite (table3_ext H W C _ (entry3 d W C)).
  - now apply table3_entry3.
  - intros i j k ? ? ?.
    now apply (table3_lookup C H W (fun k i j => entry3 d W C i j k)).
Qed.

(** X19.  Both conversions accept images with exactly three axes: on any
    other number of axes [tensor2array] raises [ValueError] (from
    [np.transpose]) and [array2tensor] raises [RuntimeError] (from
    [permute]); on three axes both return, whatever the entries. *)
Theorem image_conversions_need_three_axes (img : ndarray V) :
  (length (shape img) <> 3%nat ->
   tensor2array img = inl ValueError /\ array2tensor img = inl RuntimeError)
  /\ (length (shape img) = 3%nat ->
      exists a t, tensor2array img = inr a /\ array2tensor img = inr t).
Proof.
  unfold tensor2array, array2tensor, np_transpose_120, permute_201.
  destruct (shape img) as [|d0 [|d1 [|d2 [|d3 sh]]]]; cbn [length];
    split; intros Hlen; try (split; reflexivity); try lia;
    try discriminate Hlen.
  eexists _, _. split; reflexivity.
Qed.

End image_round_trips.

(** ** [examples/unfolded/demo_custom_prior_unfolded.py]: the image gradient *)

Section slices.
Import demo_custom_prior_unfolded.
Context {A B : Type}.

Lemma zip_with_twice (F1 F2 : A -> B -> A) (Z : list A) (I : list B) :
  zip_with F2 (zip_with F1 Z I) I = zip_with (fun z i => F2 (F1 z i) i) Z I.
Proof.
  revert I. induction Z as [|z Z IH]; intros [|i I]; cbn; [reflexivity..|].
  now rewrite IH.
Qed.

Lemma zip_with_zeros (z : B -> A) (F : A -> B -> A) (I : list B) :
  zip_with F (z <$> I) I = (fun i => F (z i) i) <$> I.
Proof. induction I as [|i I IH]; cbn; [reflexivity|]. now rewrite IH. Qed.

End slices.

Section forward_differences.
Import demo_custom_prior_unfolded.
Context {A : Type}.
Variables (zero : A -> A) (sub add : A -> A -> A).

(** The two slice updates of one axis, started from zeros, leave the forward
    differences. *)
Lemma update_twice (l : list A) :
  update_upto_last add
    (update_upto_last sub (zero <$> l) (upto_last l)) (from_second l)
  = forward_difference zero (fun a b => add (sub (zero a) a) b) l.
Proof.
  unfold update_upto_last, assign_upto_last, forward_difference, upto_last.
  rewrite !length_fmap. set (n := (length l - 1)%nat).
  rewrite <- fmap_take, zip_with_zeros.
  assert (Hn : length ((fun i => sub (zero i) i) <$> take n l) = n).
  { rewrite length_fmap, length_take. unfold n. lia. }
  assert (Hlen : (length (((fun i => sub (zero i) i) <$> take n l)
                          ++ drop n (zero <$> l)) - 1)%nat = n).
  { rewrite length_app, Hn, length_drop, length_fmap. unfold n. lia. }
  rewrite Hlen.
  rewrite take_app_length' by now symmetry.
  rewrite drop_app_length' by now symmetry.
  now rewrite zip_with_fmap_l.
Qed.

End forward_differences.

Section forward_difference_facts.
Import demo_custom_prior_unfolded.
Context {A : Type}.
Implicit Types (zero : A -> A) (diff : A -> A -> A) (l : list A).

Lemma forward_difference_lookup zero diff l (i : nat) (x : A) :
  l !! i = Some x ->
  forward_difference zero diff l !! i
  = Some (match l !! S i with Some y => diff x y | None => zero x end).
Proof.
  intros Hx. pose proof (lookup_lt_Some _ _ _ Hx) as Hi.
  unfold forward_difference, upto_last, from_second.
  assert (Hlen : length (zip_with diff (take (length l - 1) l) (drop 1 l))
                 = (length l - 1)%nat).
  { rewrite length_zip_with, length_take, length_drop. lia. }
  destruct (l !! S i) as [y|] eqn:Hy.
  - pose proof (lookup_lt_Some _ _ _ Hy) as HSi.
    rewrite lookup_app_l by (rewrite Hlen; lia).
    rewrite lookup_zip_with, lookup_take_lt, lookup_drop, Hx by lia.
    cbn. now rewrite Hy.
  - apply lookup_ge_None in Hy.
    rewrite lookup_app_r by (rewrite Hlen; lia).
    rewrite Hlen, lookup_drop, list_lookup_fmap.
    replace (length l - 1 + (i - (length l - 1)))%nat with i by lia.
    now rewrite Hx.
Qed.

Lemma forward_difference_fmap zero diff (f : A -> A) l :
  (forall a b, diff (f a) (f b) = diff a b) ->
  (forall a, zero (f a) = zero a) ->
  forward_difference zero diff (f <$> l) = forward_difference zero diff l.
Proof.
  intros Hdiff Hzero. unfold forward_difference, upto_last, from_second.
  rewrite length_fmap, <- fmap_take, <- fmap_drop.
  rewrite zip_with_fmap_l, zip_with_fmap_r, <- list_fmap_compose.
  f_equal.
  - apply zip_with_ext; auto.
  - f_equal. apply list_fmap_ext. intros ? a _. apply Hzero.
Qed.

Lemma Forall_zip_with_both {B C} (P : A -> Prop) (P' : B -> Prop)
    (Q : C -> Prop) (f : A -> B -> C) l (k : list B) :
  (forall a b, P a -> P' b -> Q (f a b)) ->
  Forall P l -> Forall P' k -> Forall Q (zip_with f l k).
Proof.
  intros Hf Hl. revert k. induction Hl as [|a l Ha Hl IH];
    intros k Hk; [constructor|].
  destruct Hk as [|b k Hb Hk]; cbn; constructor; auto.
Qed.

Lemma forward_difference_Forall (P Q : A -> Prop) zero diff l :
  (forall a b, P a -> P b -> Q (diff a b)) ->
  (forall a, P a -> Q (zero a)) ->
  Forall P l -> Forall Q (forward_difference zero diff l).
Proof.
  intros Hdiff Hzero Hl. unfold forward_difference, upto_last, from_second.
  apply Forall_app. split.
  - apply (Forall_zip_with_both P P Q); auto using Forall_take, Forall_drop.
  - apply Forall_drop, Forall_fmap. eapply Forall_impl; [exact Hl|].
    intros a Ha. now apply Hzero.
Qed.

End forward_difference_facts.

Section image_gradient.
Import demo_custom_prior_unfolded.

Lemma row_difference (a b : list R) :
  zip_with Rplus (zip_with Rminus ((fun _ => 0) <$> a) a) b
  = zip_with (fun x y => 0 - x + y) a b.
Proof. now rewrite zip_with_zeros, zip_with_fmap_l. Qed.

(** [nabla] leaves, in each plane, the forward differences of consecutive
    rows (component 0) and of consecutive columns (component 1). *)
Lemma nabla_forward_difference (I : tensor4) :
  nabla I =
  ( (fun p : list (list (list R)) =>
       (fun q : list (list R) =>
          forward_difference (fmap (fun _ : R => 0))
            (zip_with (fun x y => 0 - x + y)) q) <$> p) <$> I,
    (fun p : list (list (list R)) =>
       (fun q : list (list R) =>
          (fun r : list R =>
             forward_difference (fun _ => 0) (fun x y => 0 - x + y) r) <$> q)
       <$> p) <$> I ).
Proof.
  unfold nabla, zeros_like. cbn zeta. f_equal.
  - rewrite zip_with_twice, zip_with_zeros.
    apply list_fmap_ext. intros ? p _.
    rewrite zip_with_twice, zip_with_zeros.
    apply list_fmap_ext. intros ? q _.
    rewrite update_twice. unfold forward_difference. f_equal.
    apply zip_with_ext; [|reflexivity..]. intros a b. apply row_difference.
  - rewrite zip_with_twice, zip_with_zeros.
    apply list_fmap_ext. intros ? p _.
    rewrite zip_with_twice, zip_with_zeros.
    apply list_fmap_ext. intros ? q _.
    rewrite zip_with_twice, zip_with_zeros.
    apply list_fmap_ext. intros ? r _.
    apply update_twice.
Qed.

(** X20.  On an image whose planes have [h] rows of [w] columns, [nabla]
    has the shape of the image and holds its forward differences: at the
    pixel [(i, j)] with value [a], component 0 is [0 - a + b] for the pixel
    [b] below, and 0 in the last row; component 1 is [0 - a + b] for the
    pixel [b] to the right, and 0 in the last column. *)
Theorem nabla_entry (I : tensor4) (h w n c i j : nat) (a : R) :
  rectangular h w I ->
  entry I n c i j = Some a ->
  entry (nabla I).1 n c i j
  = Some (match entry I n c (S i) j with Some b => 0 - a + b | None => 0 end)
  /\ entry (nabla I).2 n c i j
     = Some (match entry I n c i (S j) with Some b => 0 - a + b | None => 0 end)
  /\ (entry I n c (S i) j = None <-> S i = h)
  /\ (entry I n c i (S j) = None <-> S j = w).
Proof.
  intros Hrect Ha. rewrite nabla_forward_difference. cbn [fst snd].
  unfold entry in *. rewrite !list_lookup_fmap.
  destruct (I !! n) as [p|] eqn:Hp; [|discriminate]. cbn in *.
  rewrite !list_lookup_fmap.
  destruct (p !! c) as [q|] eqn:Hq; [|discriminate]. cbn in *.
  destruct (q !! i) as [r|] eqn:Hr; [|discriminate]. cbn in Ha.
  assert (Hqrect : length q = h /\ Forall (fun r => length r = w) q).
  { eapply Forall_lookup_1 in Hrect; [|exact Hp].
    eapply Forall_lookup_1 in Hrect; [|exact Hq]. exact Hrect. }
  destruct Hqrect as [Hh Hw].
  pose proof (Forall_lookup_1 _ _ _ _ Hw Hr) as Hrw. cbn in Hrw.
  pose proof (lookup_lt_Some _ _ _ Ha) as Hj.
  pose proof (lookup_lt_Some _ _ _ Hr) as Hi.
  rewrite list_lookup_fmap, Hr. cbn.
  rewrite (forward_difference_lookup _ _ q i r Hr).
  rewrite (forward_difference_lookup _ _ r j a Ha). cbn.
  split; [|split; [reflexivity|split]].
  - destruct (q !! S i) as [r'|] eqn:Hr'; cbn.
    + pose proof (Forall_lookup_1 _ _ _ _ Hw Hr') as Hr'w. cbn in Hr'w.
      destruct (lookup_lt_is_Some_2 r' j) as [b Hb]; [lia|].
      rewrite lookup_zip_with, Ha, Hb. reflexivity.
    + rewrite list_lookup_fmap, Ha. reflexivity.
  - destruct (q !! S i) as [r'|] eqn:Hr'; cbn.
    + pose proof (Forall_lookup_1 _ _ _ _ Hw Hr') as Hr'w. cbn in Hr'w.
      pose proof (lookup_lt_Some _ _ _ Hr') as HSi.
      destruct (lookup_lt_is_Some_2 r' j) as [b Hb]; [lia|].
      rewrite Hb. split; [discriminate|lia].
    + apply lookup_ge_None in Hr'. split; [lia|reflexivity].
  - rewrite lookup_ge_None. lia.
Qed.

(** X21.  Adding a constant to every pixel changes neither [nabla] nor the
    smooth TV prior [g]. *)
Theorem nabla_shift_invariant {A} (I : tensor4) (v : R) (args : list A) :
  nabla (shift v I) = nabla I /\ g (shift v I) args = g I args.
Proof.
  assert (Hn : nabla (shift v I) = nabla I).
  { rewrite !nabla_forward_difference. unfold shift.
    rewrite <- !list_fmap_compose. f_equal.
    - apply list_fmap_ext. intros ? p _. cbn.
      rewrite <- list_fmap_compose.
      apply list_fmap_ext. intros ? q _. cbn.
      apply forward_difference_fmap.
      + intros a b. rewrite zip_with_fmap_l, zip_with_fmap_r.
        apply zip_with_ext; [|reflexivity..]. intros x y. lra.
      + intros a. now rewrite <- list_fmap_compose.
    - apply list_fmap_ext. intros ? p _. cbn.
      rewrite <- list_fmap_compose.
      apply list_fmap_ext. intros ? q _. cbn.
      rewrite <- list_fmap_compose.
      apply list_fmap_ext. intros ? r _. cbn.
      apply forward_difference_fmap; [|reflexivity]. intros a b. lra. }
  split; [exact Hn|]. unfold g. now rewrite Hn.
Qed.

Lemma sum_list_zero {X} (F : X -> R) (l : list X) :
  Forall (fun x => F x = 0) l -> sum_list (F <$> l) = 0.
Proof.
  induction 1 as [|x l Hx _ IH]; cbn; [reflexivity|].
  unfold sum_list in IH. rewrite Hx, IH. lra.
Qed.

Lemma total_zero (f : R -> R) (t : tensor4) :
  Forall (Forall (Forall (Forall (fun x => f x = 0)))) t -> total f t = 0.
Proof.
  intros Ht. unfold total. apply sum_list_zero.
  eapply Forall_impl; [exact Ht|]. intros p Hp. apply sum_list_zero.
  eapply Forall_impl; [exact Hp|]. intros q Hq. apply sum_list_zero.
  eapply Forall_impl; [exact Hq|]. intros r Hr. now apply sum_list_zero.
Qed.

(** X22.  The smooth TV prior of a constant image is zero, whatever its
    shape and its value. *)
Theorem g_constant {A} (b c h w : nat) (v : R) (args : list A) :
  g (constant b c h w v) args = 0.
Proof.
  unfold g. cbn zeta. rewrite nabla_forward_difference. cbn [fst snd].
  assert (Hsq : forall d : R, d = 0 -> (d - 0) * (d - 0) = 0)
    by (intros d ->; lra).
  rewrite !total_zero, Rplus_0_r; [apply sqrt_0| |]; unfold constant.
  - apply Forall_fmap, Forall_replicate. apply Forall_fmap, Forall_replicate.
    apply Forall_fmap, Forall_replicate. cbn.
    eapply Forall_impl;
      [apply (forward_difference_Forall (fun a => a = v) (fun d => d = 0))|].
    + intros x y -> ->. lra.
    + reflexivity.
    + apply Forall_replicate. reflexivity.
    + exact Hsq.
  - apply Forall_fmap, Forall_replicate. apply Forall_fmap, Forall_replicate.
    cbn.
    apply (forward_difference_Forall (Forall (fun a => a = v))
             (Forall (fun d => (d - 0) * (d - 0) = 0))).
    + intros x y Hx Hy.
      apply (Forall_zip_with_both (fun a => a = v) (fun a => a = v)); auto.
      intros x' y' -> ->. lra.
    + intros x Hx. apply Forall_fmap. eapply Forall_impl; [exact Hx|].
      intros ? _. cbn. lra.
    + apply Forall_replicate, Forall_replicate. reflexivity.
Qed.

End image_gradient.

Lemma array2tensor_tensor2array_witness :
  exists a,
    models_utils.tensor2array
      {| models_utils.shape := [2; 1; 2]%nat; models_utils.data := [1; 2; 3; 4]%nat |}
    = inr a
    /\ models_utils.shape a = [1; 2; 2]%nat
    /\ models_utils.array2tensor a
       = inr {| models_utils.shape := [2; 1; 2]%nat;
                models_utils.data := [1; 2; 3; 4]%nat |}.
Proof.
  destruct (array2tensor_tensor2array
              {| models_utils.shape := [2; 1; 2]%nat;
                 models_utils.data := [1; 2; 3; 4]%nat |} 2 1 2
              eq_refl eq_refl) as (a & Ha & Hs & _ & _ & Hback).
  exists a. split; [exact Ha|]. split; [exact Hs | exact Hback].
Defined.

Lemma tensor2array_array2tensor_witness :
  exists t,
    models_utils.array2tensor
      {| models_utils.shape := [1; 2; 2]%nat; models_utils.data := [1; 3; 2; 4]%nat |}
    = inr t
    /\ models_utils.shape t = [2; 1; 2]%nat
    /\ models_utils.tensor2array t
       = inr {| models_utils.shape := [1; 2; 2]%nat;
                models_utils.data := [1; 3; 2; 4]%nat |}.
Proof.
  destruct (tensor2array_array2tensor
              {| models_utils.shape := [1; 2; 2]%nat;
                 models_utils.data := [1; 3; 2; 4]%nat |} 1 2 2
              eq_refl eq_refl) as (t & Ht & Hs & _ & _ & Hback).
  exists t. split; [exact Ht|]. split; [exact Hs | exact Hback].
Defined.

Lemma image_conversions_need_three_axes_witness :
  models_utils.tensor2array
    {| models_utils.shape := [2; 2]%nat; models_utils.data := [1; 2; 3; 4]%nat |}
  = inl models_utils.ValueError
  /\ models_utils.array2tensor
       {| models_utils.shape := [2; 2]%nat; models_utils.data := [1; 2; 3; 4]%nat |}
     = inl models_utils.RuntimeError.
Proof.
  apply (proj1 (image_conversions_need_three_axes
                  {| models_utils.shape := [2; 2]%nat;
                     models_utils.data := [1; 2; 3; 4]%nat |})).
  cbn. lia.
Defined.

Lemma nabla_entry_witness :
  demo_custom_prior_unfolded.entry
    (demo_custom_prior_unfolded.nabla [[[[1; 2]; [3; 5]]]]).1 0 0 0 0
  = Some (0 - 1 + 3)
  /\ demo_custom_prior_unfolded.entry
       (demo_custom_prior_unfolded.nabla [[[[1; 2]; [3; 5]]]]).2 0 0 0 0
     = Some (0 - 1 + 2).
Proof.
  assert (Hrect : demo_custom_prior_unfolded.rectangular 2 2
                    [[[[1; 2]; [3; 5]]]]).
  { repeat constructor. }
  destruct (nabla_entry [[[[1; 2]; [3; 5]]]] 2 2 0 0 0 0 1 Hrect eq_refl)
    as (H0 & H1 & _).
  split; [exact H0 | exact H1].
Defined.

Section homogeneity.
Import demo_custom_prior_unfolded.

Lemma fmap_zip_with_out {A B C D} (f' : C -> D) (f : A -> B -> C)
    (l : list A) (k : list B) :
  f' <$> zip_with f l k = zip_with (fun a b => f' (f a b)) l k.
Proof.
  revert k. induction l as [|a l IH]; intros [|b k]; cbn; [reflexivity..|].
  now rewrite IH.
Qed.

Lemma forward_difference_equivariant {A} (zero : A -> A) (diff : A -> A -> A)
    (f f' : A -> A) (l : list A) :
  (forall a b, diff (f a) (f b) = f' (diff a b)) ->
  (forall a, zero (f a) = f' (zero a)) ->
  forward_difference zero diff (f <$> l)
  = f' <$> forward_difference zero diff l.
Proof.
  intros Hdiff Hzero. unfold forward_difference, upto_last, from_second.
  rewrite length_fmap, <- fmap_take, <- fmap_drop, fmap_app.
  rewrite zip_with_fmap_l, zip_with_fmap_r, fmap_zip_with_out.
  f_equal.
  - apply zip_with_ext; auto.
  - rewrite fmap_drop, <- !list_fmap_compose. f_equal.
    apply list_fmap_ext. intros ? a _. apply Hzero.
Qed.

Lemma nabla_scale (I : tensor4) (k : R) :
  nabla (scale k I) = (scale k (nabla I).1, scale k (nabla I).2).
Proof.
  rewrite !nabla_forward_difference. cbn [fst snd]. unfold scale.
  rewrite <- !list_fmap_compose. f_equal.
  - apply list_fmap_ext. intros ? p _. cbn.
    rewrite <- !list_fmap_compose.
    apply list_fmap_ext. intros ? q _. cbn.
    apply forward_difference_equivariant.
    + intros a b. rewrite zip_with_fmap_l, zip_with_fmap_r, fmap_zip_with_out.
      apply zip_with_ext; [|reflexivity..]. intros x y. lra.
    + intros a. rewrite <- !list_fmap_compose.
      apply list_fmap_ext. intros ? x _. cbn. lra.
  - apply list_fmap_ext. intros ? p _. cbn.
    rewrite <- !list_fmap_compose.
    apply list_fmap_ext. intros ? q _. cbn.
    rewrite <- !list_fmap_compose.
    apply list_fmap_ext. intros ? r _. cbn.
    apply forward_difference_equivariant; intros; lra.
Qed.

Lemma sum_list_scale {X} (F G : X -> R) (k : R) (l : list X) :
  (forall x, F x = k * G x) ->
  sum_list (F <$> l) = k * sum_list (G <$> l).
Proof.
  intros HF. induction l as [|x l IH]; cbn; [lra|].
  unfold sum_list in IH. rewrite HF, IH. lra.
Qed.

Lemma total_scale (f : R -> R) (c k : R) (t : tensor4) :
  (forall x, f (c * x) = k * f x) ->
  total f (scale c t) = k * total f t.
Proof.
  intros Hf. unfold total, scale. rewrite <- list_fmap_compose.
  apply sum_list_scale. intros p. cbn. rewrite <- list_fmap_compose.
  apply sum_list_scale. intros q. cbn. rewrite <- list_fmap_compose.
  apply sum_list_scale. intros r. cbn. rewrite <- list_fmap_compose.
  apply sum_list_scale. intros x. cbn. apply Hf.
Qed.

Lemma sum_list_nonneg {X} (F : X -> R) (l : list X) :
  (forall x, 0 <= F x) -> 0 <= sum_list (F <$> l).
Proof.
  intros HF. induction l as [|x l IH]; cbn; [lra|].
  unfold sum_list in IH. specialize (HF x). lra.
Qed.

Lemma total_nonneg (f : R -> R) (t : tensor4) :
  (forall x, 0 <= f x) -> 0 <= total f t.
Proof.
  intros Hf. unfold total.
  apply sum_list_nonneg. intros p. apply sum_list_nonneg. intros q.
  apply sum_list_nonneg. intros r. now apply sum_list_nonneg.
Qed.

(** X23.  The smooth TV prior is absolutely homogeneous: multiplying every
    pixel by [k] multiplies [g] by [|k|]; and [g] is never negative. *)
Theorem g_homogeneous {A} (x : tensor4) (k : R) (args : list A) :
  g (scale k x) args = Rabs k * g x args /\ 0 <= g x args.
Proof.
  split; [|apply sqrt_pos].
  unfold g. cbn zeta. rewrite nabla_scale. cbn [fst snd].
  rewrite !(total_scale _ k (k * k)) by (intros; lra).
  rewrite <- Rmult_plus_distr_l, sqrt_mult.
  - f_equal. exact (sqrt_Rsqr_abs k).
  - exact (Rle_0_sqr k).
  - apply Rplus_le_le_0_compat; apply total_nonneg; intros d;
      exact (Rle_0_sqr (d - 0)).
Qed.

End homogeneity.
